(** * SuiteSpot RAG stack: build pipeline, diagnostics and query-time fusion

    A shallow embedding of [comprehensive_rag.py], [mcp_rag_server.py] and
    [rag_sentinel.py].  The LlamaIndex and provider calls that the Python
    code delegates to are the fields of the class [Library]; what the
    repository's own code does around them (sanitising, the storage-directory
    test, the try/except around the knowledge-graph load, the batching loop
    with its checkpoint saves, the environment checks, the scheduling of
    rebuilds on the event loop) is transcribed as written.  Fusion, reranking
    and the incremental refresh, which the repository leaves to the library
    altogether, are modelled from the specification in the modules [Fusion],
    [Rerank] and [Refresh]. *)

From Stdlib Require Import List Bool Arith Lia NArith QArith Lqa String.
From stdpp Require Import base option list gmap strings pretty sorting.

Local Open Scope string_scope.
Local Open Scope list_scope.
Local Open Scope nat_scope.

(** ** Data model *)

(** A Python [str] holding document text: a sequence of Unicode code points. *)
Abbreviation pystr := (list N).

(** [llama_index.core.Document(text=..., metadata=...)]: the two fields the
    sanitising loop passes to the constructor. *)
Record Document := mkDocument {
  text : pystr;
  metadata : list (string * string)
}.

(** A chunk produced by [MarkdownNodeParser]. *)
Record Node := mkNode {
  node_id : string;
  node_text : pystr
}.

(** A fact extracted by the knowledge-graph LLM from one node. *)
Record Triplet := mkTriplet {
  subject : string;
  predicate : string;
  object_ : string;
  source_node : string
}.

Record VectorIndex := mkVectorIndex { vi_nodes : list Node }.

Record KGIndex := mkKGIndex {
  kg_nodes : list Node;
  kg_triplets : list Triplet
}.

(** What [STORAGE_DIR] holds: the index store entries ["vector"] and ["kg"]. *)
Record Storage := mkStorage {
  st_vector : option VectorIndex;
  st_kg : option KGIndex
}.

(** [None]: [os.path.exists(STORAGE_DIR)] is false. *)
Abbreviation Disk := (option Storage).

(** Externally visible effects of one run, oldest first. *)
Inductive event :=
| MakeDirs
| Embed (n : Node)
| Extract (n : Node)
| Persist (s : Storage)
| CheckpointSaved (c : nat).

Record World := mkWorld {
  disk : Disk;
  log : list event
}.

(** ** A state-and-exception monad for the builder

    [None] as a result is an uncaught Python exception; the world is the one
    at the raise. *)
Definition M (A : Type) : Type := World → World * option A.

#[global] Instance M_ret : MRet M := λ A a w, (w, Some a).
#[global] Instance M_bind : MBind M := λ A B f m w,
  match m w with
  | (w', Some a) => f a w'
  | (w', None) => (w', None)
  end.

Definition raise {A} : M A := λ w, (w, None).
Definition emit (e : event) : M unit :=
  λ w, (mkWorld (disk w) (log w ++ [e]), Some tt).
Definition get_disk : M Disk := λ w, (w, Some (disk w)).
Definition put_disk (d : Disk) : M unit := λ w, (mkWorld d (log w), Some tt).

(** [try: body except Exception: handler]; effects of the failed body stay. *)
Definition try_except {A} (body handler : M A) : M A := λ w,
  match body w with
  | (w', Some a) => (w', Some a)
  | (w', None) => handler w'
  end.

(** [for x in xs: body x]. *)
Fixpoint for_each {A} (xs : list A) (body : A → M unit) : M unit :=
  match xs with
  | [] => mret tt
  | x :: rest => _ ← body x; for_each rest body
  end.

(** ** Python built-ins used by the code *)

(** [range(start, stop, step)] for a non-negative step; a zero step is a
    [ValueError]. *)
Fixpoint range_from (fuel start stop step : nat) : list nat :=
  match fuel with
  | 0 => []
  | S fuel' =>
      if start <? stop then start :: range_from fuel' (start + step) stop step
      else []
  end.

Definition py_range (start stop step : nat) : option (list nat) :=
  if step =? 0 then None else Some (range_from stop start stop step).

(** [xs[i : j]]. *)
Definition slice {A} (xs : list A) (i j : nat) : list A := take (j - i) (drop i xs).

(** ** External collaborators

    The parts of LlamaIndex and of the providers that the repository calls
    but does not define. *)
Class Library := {
  (** [str.isprintable] on a single code point. *)
  isprintable : N → bool;
  (** [MarkdownNodeParser().get_nodes_from_documents]. *)
  get_nodes_from_documents : list Document → list Node;
  (** The extraction LLM's answer for one node. *)
  extract_triplets : Node → list Triplet;
  (** [kg_index.refresh_ref(documents)]: the nodes it sent to the extraction
      provider, and the refreshed index unless it raised. *)
  refresh_ref : KGIndex → list Document → list Node * option KGIndex
}.

(** ** Sanitising (comprehensive_rag.py, lines 60-69) *)

(** ["\n\r\t"] *)
Definition nl_cr_tab : pystr := [10; 13; 9]%N.

(** [lambda x: x.isprintable() or x in "\n\r\t"] *)
Definition keep_char `{Library} (x : N) : bool :=
  isprintable x || existsb (N.eqb x) nl_cr_tab.

(** ["".join(filter(keep_char, doc.text))] *)
Definition clean_text `{Library} (t : pystr) : pystr := List.filter keep_char t.

(** The loop building [cleaned_docs] by [append]. *)
Definition cleaned_docs `{Library} (documents : list Document) : list Document :=
  fold_left (λ acc doc, acc ++ [mkDocument (clean_text (text doc)) (metadata doc)])
            documents [].

(** ** The builder (comprehensive_rag.py, lines 76-152) *)

Definition CHECKPOINT_INTERVAL : nat := 500.

(** [storage_context.persist(persist_dir=STORAGE_DIR)]: whole-file overwrite,
    returning after the write. *)
Definition persist (s : Storage) : M unit :=
  _ ← put_disk (Some s); emit (Persist s).

(** [StorageContext.from_defaults(persist_dir=STORAGE_DIR)] *)
Definition from_defaults : M Storage :=
  d ← get_disk;
  match d with
  | Some s => mret s
  | None => raise
  end.

(** [load_index_from_storage(storage_context, index_id="vector")] *)
Definition load_vector (ctx : Storage) : M VectorIndex :=
  match st_vector ctx with
  | Some v => mret v
  | None => raise
  end.

(** [load_index_from_storage(storage_context, index_id="kg")] *)
Definition load_kg (ctx : Storage) : M KGIndex :=
  match st_kg ctx with
  | Some k => mret k
  | None => raise
  end.

(** Step 3.  Returns the index and the binding of the local variable
    [storage_context], which only the [else] branch assigns. *)
Definition vector_phase (nodes : list Node) : M (VectorIndex * option Storage) :=
  d ← get_disk;
  match d with
  | None =>
      _ ← put_disk (Some (mkStorage None None));
      _ ← emit MakeDirs;
      _ ← for_each nodes (λ n, emit (Embed n));
      let vector_index := mkVectorIndex nodes in
      _ ← persist (mkStorage (Some vector_index) None);
      mret (vector_index, None)
  | Some _ =>
      storage_context ← from_defaults;
      vector_index ← load_vector storage_context;
      mret (vector_index, Some storage_context)
  end.

(** [kg_index.insert_nodes(batch)]: one extraction call per node, the
    triplets appended to the graph store. *)
Definition insert_nodes `{Library} (kg : KGIndex) (batch : list Node) : M KGIndex :=
  _ ← for_each batch (λ n, emit (Extract n));
  mret (mkKGIndex (kg_nodes kg ++ batch)
                  (kg_triplets kg ++ flat_map extract_triplets batch)).

(** The body of [for i in range(0, total_nodes, CHECKPOINT_INTERVAL)],
    iterated over the indices the range yields. *)
Fixpoint kg_batches `{Library} (interval : nat) (ctx : Storage) (nodes : list Node)
    (indices : list nat) (kg_index : KGIndex) : M KGIndex :=
  match indices with
  | [] => mret kg_index
  | i :: rest =>
      let batch := slice nodes i (i + interval) in
      kg_index' ← insert_nodes kg_index batch;
      _ ← persist (mkStorage (st_vector ctx) (Some kg_index'));
      _ ← emit (CheckpointSaved (i + length batch));
      kg_batches interval ctx nodes rest kg_index'
  end.

(** The [except Exception:] handler: a fresh index and the batching loop.
    An unbound [storage_context] is a [NameError]. *)
Definition fresh_build `{Library} (interval : nat) (storage_context : option Storage)
    (nodes : list Node) : M KGIndex :=
  match storage_context with
  | None => raise
  | Some ctx =>
      match py_range 0 (length nodes) interval with
      | None => raise
      | Some indices => kg_batches interval ctx nodes indices (mkKGIndex [] [])
      end
  end.

(** The [try:] body after [storage_context] has been bound. *)
Definition load_and_refresh `{Library} (incremental : bool) (ctx : Storage)
    (documents : list Document) : M KGIndex :=
  kg_index ← load_kg ctx;
  if incremental then
    let '(extracted, refreshed) := refresh_ref kg_index documents in
    _ ← for_each extracted (λ n, emit (Extract n));
    match refreshed with
    | None => raise
    | Some kg_index' =>
        _ ← persist (mkStorage (st_vector ctx) (Some kg_index'));
        mret kg_index'
    end
  else mret kg_index.

(** Step 4. *)
Definition kg_phase `{Library} (interval : nat) (incremental : bool)
    (documents : list Document) (nodes : list Node)
    (storage_context : option Storage) : M KGIndex :=
  bound ← try_except (ctx ← from_defaults; mret (Some ctx)) (mret None);
  match bound with
  | None => fresh_build interval storage_context nodes
  | Some ctx =>
      try_except (load_and_refresh incremental ctx documents)
                 (fresh_build interval (Some ctx) nodes)
  end.

(** What step 5 assembles: the three retrievers' sources and the constants
    passed to them. *)
Record QueryEngine := mkQueryEngine {
  qe_vector : VectorIndex;
  qe_kg : KGIndex;
  qe_bm25_nodes : list Node;
  similarity_top_k : nat;
  choice_batch_size : nat;
  top_n : nat
}.

(** [build_comprehensive_stack], with the module constant made an argument;
    [loaded] is what [reader.load_data()] returned. *)
Definition build_with `{Library} (interval : nat) (incremental : bool)
    (loaded : list Document) : M QueryEngine :=
  let documents := cleaned_docs loaded in
  let nodes := get_nodes_from_documents documents in
  '(vector_index, storage_context) ← vector_phase nodes;
  kg_index ← kg_phase interval incremental documents nodes storage_context;
  mret (mkQueryEngine vector_index kg_index nodes 10 5 5).

Definition build_comprehensive_stack `{Library} (incremental : bool)
    (loaded : list Document) : M QueryEngine :=
  build_with CHECKPOINT_INTERVAL incremental loaded.

(** One process run started on disk [d]. *)
Definition run `{Library} (interval : nat) (incremental : bool)
    (loaded : list Document) (d : Disk) : World * option QueryEngine :=
  build_with interval incremental loaded (mkWorld d []).

(** *** Reading a trace *)

Definition extract_calls (evs : list event) : list Node :=
  flat_map (λ e, match e with Extract n => [n] | _ => [] end) evs.

Definition embed_calls (evs : list event) : list Node :=
  flat_map (λ e, match e with Embed n => [n] | _ => [] end) evs.

(** The disk left behind when the process dies after the events [evs]. *)
Definition replay (d : Disk) (evs : list event) : Disk :=
  fold_left (λ d e, match e with
                    | MakeDirs => Some (mkStorage None None)
                    | Persist s => Some s
                    | _ => d
                    end) evs d.

(** The processed count a persisted snapshot records: the number of nodes in
    its knowledge graph. *)
Definition processed_count (d : Disk) : nat :=
  match d with
  | Some (mkStorage _ (Some kg)) => length (kg_nodes kg)
  | _ => 0
  end.

(** ** The diagnostics script (rag_sentinel.py) *)

(** What the audit can observe of the machine it runs on. *)
Record Host := mkHost {
  (** [os.environ] *)
  environ : gmap string string;
  (** whether each provider accepts a given key on a cheap test call *)
  openai_accepts : string → bool;
  anthropic_accepts : string → bool;
  google_accepts : string → bool;
  (** [./docs]: file names with their contents, if the folder exists *)
  docs_listing : option (list (string * pystr));
  (** the four [import]s of step 4 succeed *)
  imports_ok : bool;
  (** [os.path.exists(os.path.join("./rag_storage", name))] *)
  storage_has : string → bool;
  (** the disk and the documents [build_comprehensive_stack] will see *)
  host_disk : Disk;
  host_docs : list Document;
  (** [str(engine.query(q))], unless the query raises *)
  engine_query : QueryEngine → string → option string
}.

Inductive sevent :=
| Result (stage : nat) (success : bool)
| ApiCall (provider : string)
| Built
| Queried.

(** A writer with [sys.exit]: [None] is [SystemExit(1)]. *)
Definition D (A : Type) : Type := list sevent * option A.

#[global] Instance D_ret : MRet D := λ A a, ([], Some a).
#[global] Instance D_bind : MBind D := λ A B f m,
  match m with
  | (evs, Some a) => let '(evs', r) := f a in (evs ++ evs', r)
  | (evs, None) => (evs, None)
  end.

Definition tell (e : sevent) : D unit := ([e], Some tt).

(** [print_result(success, details)]: a failed result exits with code 1. *)
Definition print_result (stage : nat) (success : bool) : D unit :=
  ([Result stage success], if success then Some tt else None).

Fixpoint d_for {A} (xs : list A) (body : A → D unit) : D unit :=
  match xs with
  | [] => mret tt
  | x :: rest => _ ← body x; d_for rest body
  end.

(** [s.endswith(suffix)] *)
Definition endswith (s suffix : string) : bool :=
  String.prefix (String.rev suffix) (String.rev s).

Definition keys : list string :=
  ["OPENAI_API_KEY"; "ANTHROPIC_API_KEY"; "GOOGLE_API_KEY"].

(** Step 1 (lines 71-77). *)
Definition check_environment (h : Host) : D unit :=
  _ ← d_for keys (λ key,
        match environ h !! key with
        | None => print_result 1 false
        | Some _ => mret tt
        end);
  print_result 1 true.

(** Step 2 (lines 79-98); the per-file warnings only print. *)
Definition audit_docs (h : Host) : D unit :=
  match docs_listing h with
  | None => print_result 2 false
  | Some listing =>
      let files := List.filter (λ f, endswith (fst f) ".md") listing in
      _ ← (if bool_decide (files = []) then print_result 2 false else mret tt);
      print_result 2 true
  end.

(** One [try: client = P(api_key=os.environ[KEY]); <cheap call> except
    Exception: print_result(False, ...)] block. *)
Definition api_check (h : Host) (key provider : string)
    (accepts : string → bool) : D unit :=
  match environ h !! key with
  | None => print_result 3 false
  | Some k =>
      _ ← tell (ApiCall provider);
      if accepts k then mret tt else print_result 3 false
  end.

(** [audit_api_health] (lines 27-64).  The Gemini block is commented out in
    the source, so no third check is made. *)
Definition audit_api_health (h : Host) : D unit :=
  _ ← api_check h "OPENAI_API_KEY" "openai" (openai_accepts h);
  _ ← api_check h "ANTHROPIC_API_KEY" "anthropic" (anthropic_accepts h);
  print_result 3 true.

(** Step 4 (lines 103-112). *)
Definition audit_dependencies (h : Host) : D unit :=
  _ ← (if imports_ok h then mret tt else print_result 4 false);
  print_result 4 true.

(** Step 5 (lines 114-128). *)
Definition audit_storage (h : Host) : D unit :=
  if storage_has h "docstore.json" && storage_has h "default__vector_store.json"
  then print_result 5 true
  else print_result 5 false.

Definition test_query : string :=
  "How do I find the player car and set its rotation to face the ball?".

(** Step 6 (lines 130-155): the first and only query of the audit. *)
Definition retrieval_test `{Library} (h : Host) : D unit :=
  _ ← match run CHECKPOINT_INTERVAL false (host_docs h) (host_disk h) with
      | (_, None) => print_result 6 false
      | (_, Some engine) =>
          _ ← tell Built;
          _ ← tell Queried;
          match engine_query h engine test_query with
          | None => print_result 6 false
          | Some response =>
              if String.length response <? 20 then print_result 6 false
              else mret tt
          end
      end;
  print_result 6 true.

Definition run_diagnostics `{Library} (h : Host) : D unit :=
  _ ← check_environment h;
  _ ← audit_docs h;
  _ ← audit_api_health h;
  _ ← audit_dependencies h;
  _ ← audit_storage h;
  retrieval_test h.

(** A credential the providers would turn down. *)
Definition credential_rejected (h : Host) (key : string) : Prop :=
  ∃ k, environ h !! key = Some k ∧
    ((key = "OPENAI_API_KEY" ∧ openai_accepts h k = false) ∨
     (key = "ANTHROPIC_API_KEY" ∧ anthropic_accepts h k = false) ∨
     (key = "GOOGLE_API_KEY" ∧ google_accepts h k = false)).

(** The audit stopped, and did so without having issued a query. *)
Definition aborts_before_query {A} (r : D A) : Prop :=
  r.2 = None ∧ Queried ∉ r.1.

(** ** The server (mcp_rag_server.py) *)

Inductive ServerState :=
| Exited (code : nat)
| Serving (engine : QueryEngine).

(** [main] up to [server.run]: the initial build inside [try], the
    [sys.exit(1)] of its handler, and otherwise the observer and the tool
    handlers set up around the engine. *)
Definition main `{Library} (loaded : list Document) (d : Disk) : World * ServerState :=
  match run CHECKPOINT_INTERVAL true loaded d with
  | (w, Some engine) => (w, Serving engine)
  | (w, None) => (w, Exited 1)
  end.

(** *** The event loop and the watcher thread *)

Record FileEvent := mkFileEvent {
  is_directory : bool;
  src_path : string
}.

(** A coroutine body between two suspension points. *)
Inductive instr :=
| IPrint (msg : string)
| ICallBuild (incremental : bool).

(** [async def reindex()]: two prints around a synchronous call, and no
    [await]. *)
Definition reindex : list instr :=
  [IPrint "Re-indexing changed documents...";
   ICallBuild true;
   IPrint "Incremental re-index complete."].

Inductive loop_event :=
| Scheduled
| Printed (msg : string)
| RebuildStart
| RebuildEnd.

Record Loop := mkLoop {
  (** callbacks handed over by [run_coroutine_threadsafe], oldest first *)
  ready : list (list instr);
  (** the coroutine the loop thread is executing, with what is left of it *)
  current : option (list instr);
  (** the loop thread is inside [build_comprehensive_stack] *)
  building : bool;
  history : list loop_event
}.

Definition loop_init : Loop := mkLoop [] None false [].

(** [DocsWatcher.on_modified], run on the observer's thread. *)
Definition on_modified (ev : FileEvent) (l : Loop) : Loop :=
  if negb (is_directory ev) && endswith (src_path ev) ".md"
  then mkLoop (ready l ++ [reindex]) (current l) (building l) (history l ++ [Scheduled])
  else l.

(** One move of the loop thread: leave the synchronous call it is in, or run
    the next instruction of the current coroutine, or take the next ready
    callback. *)
Definition tick (l : Loop) : Loop :=
  match current l with
  | Some body =>
      if building l then mkLoop (ready l) (Some body) false (history l ++ [RebuildEnd])
      else match body with
           | [] => mkLoop (ready l) None false (history l)
           | IPrint msg :: rest =>
               mkLoop (ready l) (Some rest) false (history l ++ [Printed msg])
           | ICallBuild _ :: rest =>
               mkLoop (ready l) (Some rest) true (history l ++ [RebuildStart])
           end
  | None =>
      match ready l with
      | [] => l
      | body :: rest => mkLoop rest (Some body) false (history l)
      end
  end.

(** The two threads interleave arbitrarily. *)
Inductive action :=
| Notify (ev : FileEvent)
| Tick.

Definition act (l : Loop) (a : action) : Loop :=
  match a with
  | Notify ev => on_modified ev l
  | Tick => tick l
  end.

Definition exec (acts : list action) : Loop := fold_left act acts loop_init.

(** Rebuilds started and not yet ended. *)
Fixpoint in_flight (evs : list loop_event) : Z :=
  match evs with
  | [] => 0
  | RebuildStart :: rest => 1 + in_flight rest
  | RebuildEnd :: rest => -1 + in_flight rest
  | _ :: rest => in_flight rest
  end%Z.

(** What the loop thread is doing agrees with the history: a rebuild is in
    flight exactly while the thread is inside the synchronous call, and an
    idle thread is not inside it. *)
Definition loop_inv (l : Loop) : Prop :=
  in_flight (history l) = (if building l then 1 else 0)%Z
  ∧ (current l = None → building l = false).

(** ** Vocabulary of the properties *)

#[global] Instance Node_eq_dec : EqDecision Node.
Proof. solve_decision. Defined.

(** The nodes one run parses out of what the reader loaded. *)
Definition nodes_of `{Library} (loaded : list Document) : list Node :=
  get_nodes_from_documents (cleaned_docs loaded).

(** A character the sanitiser lets through. *)
Definition allowed `{Library} (c : N) : Prop :=
  isprintable c = true ∨ c ∈ nl_cr_tab.

(** Contiguous batches of at most [B] elements each. *)
Fixpoint batches {A} (fuel B : nat) (l : list A) : list (list A) :=
  match fuel with
  | 0 => []
  | S fuel' =>
      match l with
      | [] => []
      | _ :: _ => take B l :: batches fuel' B (drop B l)
      end
  end.

Definition partition_batches {A} (B : nat) (l : list A) : list (list A) :=
  batches (length l) B l.

(** The index after one more batch has been inserted. *)
Definition kg_extend `{Library} (kg : KGIndex) (batch : list Node) : KGIndex :=
  mkKGIndex (kg_nodes kg ++ batch)
            (kg_triplets kg ++ flat_map extract_triplets batch).

(** Batch by batch: the batch's extractions, then the write of the snapshot
    holding everything so far, then the announcement of the new count. *)
Fixpoint checkpointed_trace `{Library} (vec : option VectorIndex) (done : KGIndex)
    (bs : list (list Node)) : list event :=
  match bs with
  | [] => []
  | b :: rest =>
      let done' := kg_extend done b in
      map Extract b
        ++ [Persist (mkStorage vec (Some done'));
            CheckpointSaved (length (kg_nodes done'))]
        ++ checkpointed_trace vec done' rest
  end.

(** The events of the vector phase: no extraction, no knowledge graph on
    disk, no checkpoint message. *)
Definition vector_only (e : event) : Prop :=
  match e with
  | MakeDirs | Embed _ => True
  | Persist s => st_kg s = None
  | Extract _ | CheckpointSaved _ => False
  end.

(** The trace of a build started without a storage directory. *)
Definition fresh_trace `{Library} (B : nat) (nodes : list Node) : list event :=
  [MakeDirs] ++ map Embed nodes
    ++ [Persist (mkStorage (Some (mkVectorIndex nodes)) None)]
    ++ checkpointed_trace (Some (mkVectorIndex nodes)) (mkKGIndex [] [])
         (partition_batches B nodes).

(** The count of the last [Checkpoint saved at node ...] message, 0 if none. *)
Definition announced (a : nat) (evs : list event) : nat :=
  fold_left (λ a e, match e with CheckpointSaved c => c | _ => a end) evs a.

Definition last_checkpoint (evs : list event) : nat := announced 0 evs.

(** The persisted index holds this node's id with another content. *)
Definition hash_changed (v : VectorIndex) (n : Node) : bool :=
  existsb (λ old, bool_decide (node_id old = node_id n)
                  && negb (bool_decide (node_text old = node_text n)))
          (vi_nodes v).

(** *** Three statements of the specification, in its own wording *)



(** A rebuild over a persisted vector index embeds exactly the nodes whose
    content changed. *)
Definition embedding_cost_avoidance_claim `{Library} : Prop :=
  ∀ (B : nat) (incremental : bool) (loaded : list Document)
    (v : VectorIndex) (kg : option KGIndex),
    embed_calls (log (run B incremental loaded (Some (mkStorage (Some v) kg))).1)
    = List.filter (hash_changed v) (nodes_of loaded).

(** Any of the three credentials missing or turned down stops the audit
    before its query. *)
Definition fatal_startup_claim `{Library} : Prop :=
  ∀ (h : Host) (key : string),
    key ∈ keys →
    environ h !! key = None ∨ credential_rejected h key →
    aborts_before_query (run_diagnostics h).

(** ** Concrete collaborators for the examples *)

Definition file_path_of (d : Document) : string :=
  match List.find (λ kv, String.eqb kv.1 "file_path") (metadata d) with
  | Some kv => kv.2
  | None => ""
  end.

(** A parser that makes one node of each document. *)
Definition one_node_per_document (docs : list Document) : list Node :=
  map (λ d, mkNode (file_path_of d) (text d)) docs.

Definition demo_library : Library := {|
  isprintable c := (32 <=? c)%N && (c <? 127)%N;
  get_nodes_from_documents := one_node_per_document;
  extract_triplets n := [mkTriplet (node_id n) "documents" "topic" (node_id n)];
  refresh_ref kg docs := ([], Some kg)
|}.

(** Three files; the first holds a BEL character. *)
Definition demo_docs : list Document :=
  [mkDocument [97; 7; 10]%N [("file_path", "a.md")];
   mkDocument [98]%N [("file_path", "b.md")];
   mkDocument [99]%N [("file_path", "c.md")]].

(** The corpus of the specification's resume test: 1200 one-line files. *)
Definition corpus_1200 : list Document :=
  map (λ i, mkDocument [35; 32; 100]%N [("file_path", "docs/" +:+ pretty i +:+ ".md")])
      (seq 0 1200).

(** The checkpoint messages of a trace. *)
Definition checkpoints (evs : list event) : list nat :=
  flat_map (λ e, match e with CheckpointSaved c => [c] | _ => [] end) evs.

(** The storage directory a finished build of [demo_docs] leaves. *)
Definition demo_built_disk : Disk :=
  disk (run (H:=demo_library) CHECKPOINT_INTERVAL true demo_docs None).1.

(** A machine with all three variables set, the OpenAI and Anthropic keys
    accepted, and a Google key that Google turns down. *)
Definition host_with_bad_google_key : Host := {|
  environ := <["OPENAI_API_KEY" := "sk-live"]>
             (<["ANTHROPIC_API_KEY" := "sk-ant-live"]>
              (<["GOOGLE_API_KEY" := "revoked"]> ∅));
  openai_accepts := λ _, true;
  anthropic_accepts := λ _, true;
  google_accepts := λ _, false;
  docs_listing := Some [("a.md", [35; 32; 97]%N)];
  imports_ok := true;
  storage_has := λ _, true;
  host_disk := demo_built_disk;
  host_docs := demo_docs;
  engine_query := λ _ _, Some "Use CarWrapper::SetRotation."
|}.

(** The same machine without the OpenAI variable. *)
Definition host_without_openai_key : Host := {|
  environ := <["ANTHROPIC_API_KEY" := "sk-ant-live"]>
             (<["GOOGLE_API_KEY" := "AIza-live"]> ∅);
  openai_accepts := λ _, true;
  anthropic_accepts := λ _, true;
  google_accepts := λ _, true;
  docs_listing := Some [("a.md", [35; 32; 97]%N)];
  imports_ok := true;
  storage_has := λ _, true;
  host_disk := demo_built_disk;
  host_docs := demo_docs;
  engine_query := λ _ _, Some "Use CarWrapper::SetRotation."
|}.

(** ** Query-time components

    The repository hands fusion and reranking to LlamaIndex
    ([QueryFusionRetriever] in mode ["reciprocal_rerank"], [LLMRerank]) and
    the incremental refresh to [refresh_ref]; their bodies are not part of
    it.  They are modelled here from the specification. *)

Module Fusion.

Inductive source_tag := Vector | Graph | Lexical.

#[global] Instance source_tag_eq_dec : EqDecision source_tag.
Proof. solve_decision. Defined.

(** Modelled from the spec: [FusedResult] of section 3, "(node id, fused
    score, contributing sources)"; the body of the fusion retriever is
    missing from the sources. *)
Record FusedResult := mkFused {
  fr_node : string;
  fr_score : Q;
  fr_sources : list source_tag
}.

(** Modelled from the spec: the smoothing constant [c] of section 4.2,
    "fixed, e.g. 60"; missing from the sources. *)
Definition rrf_c : nat := 60.

(** Modelled from the spec: "rank 1 = most relevant", the rank of a node in
    one retriever's ordered sequence, counted at its first occurrence;
    missing from the sources. *)
Fixpoint rank_from (r : nat) (id : string) (ranking : list string) : option nat :=
  match ranking with
  | [] => None
  | x :: rest => if String.eqb x id then Some r else rank_from (S r) id rest
  end.

Definition rank_of (id : string) (ranking : list string) : option nat :=
  rank_from 1 id ranking.

(** Modelled from the spec: the summand [1 / (rank_R(node) + c)], and "nodes
    absent from a retriever's list contribute 0"; missing from the sources. *)
Definition reciprocal (rank : option nat) : Q :=
  match rank with
  | Some r => 1 # Pos.of_nat (r + rrf_c)
  | None => 0
  end.

(** Modelled from the spec: "fused_score(node) = sum over retrievers R that
    returned node of 1 / (rank_R(node) + c)"; missing from the sources. *)
Definition fused_score (rankings : list (source_tag * list string)) (id : string) : Q :=
  fold_right (λ tr acc, reciprocal (rank_of id tr.2) + acc)%Q 0%Q rankings.

(** Modelled from the spec: the "contributing sources" of a fused result;
    missing from the sources. *)
Definition contributing (rankings : list (source_tag * list string)) (id : string)
    : list source_tag :=
  map fst (List.filter (λ tr, bool_decide (id ∈ tr.2)) rankings).

(** Modelled from the spec: "the node id's first-seen order across retrievers
    in a fixed retriever priority"; missing from the sources. *)
Fixpoint first_seen_from (seen ids : list string) : list string :=
  match ids with
  | [] => []
  | x :: rest =>
      if bool_decide (x ∈ seen) then first_seen_from seen rest
      else x :: first_seen_from (x :: seen) rest
  end.

Definition first_seen (rankings : list (source_tag * list string)) : list string :=
  first_seen_from [] (concat (map snd rankings)).

(** Modelled from the spec: a fused result together with its place in the
    first-seen order, which the tie-break needs; missing from the sources. *)
Record Candidate := mkCandidate {
  c_pos : nat;
  c_result : FusedResult
}.

(** Modelled from the spec: one fused result for every node that some
    retriever returned; missing from the sources. *)
Definition candidates (rankings : list (source_tag * list string)) : list Candidate :=
  imap (λ i id, mkCandidate i (mkFused id (fused_score rankings id)
                                       (contributing rankings id)))
       (first_seen rankings).

(** Modelled from the spec: "descending fused_score; ties broken first by
    number of contributing retrievers (more sources wins), then by the node
    id's first-seen order ..., then by node id lexicographic order"; missing
    from the sources. *)
Definition ranks_before (a b : Candidate) : bool :=
  match Qcompare (fr_score (c_result a)) (fr_score (c_result b)) with
  | Gt => true
  | Lt => false
  | Eq =>
      match Nat.compare (length (fr_sources (c_result b)))
                        (length (fr_sources (c_result a))) with
      | Lt => true
      | Gt => false
      | Eq =>
          match Nat.compare (c_pos a) (c_pos b) with
          | Lt => true
          | Gt => false
          | Eq => String.leb (fr_node (c_result a)) (fr_node (c_result b))
          end
      end
  end.

(** The same order, said as a proposition. *)
Definition precedes (a b : Candidate) : Prop :=
  let sa := fr_score (c_result a) in
  let sb := fr_score (c_result b) in
  let na := length (fr_sources (c_result a)) in
  let nb := length (fr_sources (c_result b)) in
  Qlt sb sa
  ∨ (Qeq sa sb
     ∧ (nb < na
        ∨ (na = nb
           ∧ (c_pos a < c_pos b
              ∨ (c_pos a = c_pos b
                 ∧ String.le (fr_node (c_result a)) (fr_node (c_result b))))))).

(** Modelled from the spec: the fused, ordered result over the retrievers
    that answered, listed in priority order; missing from the sources. *)
Definition sorted_candidates (rankings : list (source_tag * list string))
    : list Candidate :=
  merge_sort (λ a b, Is_true (ranks_before a b)) (candidates rankings).

(** Modelled from the spec: [retrieve(query, k)] once the retrievers have
    answered, "ordered sequence of FusedResult"; missing from the sources. *)
Definition rrf (rankings : list (source_tag * list string)) : list FusedResult :=
  map c_result (sorted_candidates rankings).

Definition fuse (vector graph lexical : list string) : list FusedResult :=
  rrf [(Vector, vector); (Graph, graph); (Lexical, lexical)].

(** Modelled from the spec: [RetrievalUnavailableError] of section 7;
    missing from the sources. *)
Inductive retrieval_error := RetrievalUnavailable.

(** Modelled from the spec: the rankings of the retrievers that answered,
    in priority order, [None] being a retriever that failed or timed out;
    missing from the sources. *)
Definition replied (outcomes : list (source_tag * option (list string)))
    : list (source_tag * list string) :=
  omap (λ tr : source_tag * option (list string), (tr.1 ,.) <$> tr.2) outcomes.

Definition answered (vector graph lexical : option (list string))
    : list (source_tag * list string) :=
  replied [(Vector, vector); (Graph, graph); (Lexical, lexical)].

(** All retrievers, with an empty ranking for each that failed. *)
Definition padded (outcomes : list (source_tag * option (list string)))
    : list (source_tag * list string) :=
  map (λ tr, (tr.1, default [] tr.2)) outcomes.

(** Modelled from the spec: the failure policy of section 4.2, "if one
    retriever fails or times out, fusion proceeds with the remaining
    retrievers' results; if all three fail, the call fails with a
    retrieval-unavailable error"; missing from the sources. *)
Definition retrieve (vector graph lexical : option (list string))
    : retrieval_error + list FusedResult :=
  match answered vector graph lexical with
  | [] => inl RetrievalUnavailable
  | rankings => inr (rrf rankings)
  end.

End Fusion.

Module Rerank.

(** Modelled from the spec: a graded candidate, with its place in the fused
    order; the body of the reranker is missing from the sources. *)
Record Graded := mkGraded {
  g_node : string;
  g_score : nat;
  g_pos : nat
}.

(** Modelled from the spec: one batch handed to the relevance-grading
    provider of section 4.3, which "returns a per-candidate relevance
    judgment within the batch" or fails after retries ([None]); the body of
    the reranker is missing from the sources. *)
Definition grade_one (grade : list string → option (string → nat))
    (offset : nat) (batch : list string) : option (list Graded) :=
  judgment ← grade batch;
  Some (imap (λ i id, mkGraded id (judgment id) (offset + i)) batch).

(** Modelled from the spec: every batch is submitted once; the graded
    candidates are collected, the members of a failed batch are set aside
    "in their original fused order"; missing from the sources. *)
Fixpoint grade_batches (grade : list string → option (string → nat))
    (offset : nat) (bs : list (list string)) : list Graded * list string :=
  match bs with
  | [] => ([], [])
  | b :: rest =>
      let '(graded, ungraded) := grade_batches grade (offset + length b) rest in
      match grade_one grade offset b with
      | Some gs => (gs ++ graded, ungraded)
      | None => (graded, b ++ ungraded)
      end
  end.

(** Modelled from the spec: "final order is by grading score descending
    across all batches; within a batch, its pre-rerank fused order is the
    tie-break"; missing from the sources. *)
Definition graded_before (a b : Graded) : bool :=
  (g_score b <? g_score a)
  || ((g_score a =? g_score b) && (g_pos a <=? g_pos b)).

Record Reranked := mkReranked {
  (** the ordered candidates, at most [top_n] of them *)
  ranked : list string;
  (** the [RerankDegraded] notice: the candidates that were not graded *)
  not_graded : list string
}.

(** Modelled from the spec: [rerank(query, fused candidates, top_n)] of
    section 4.3, with the fallback for failed batches; missing from the
    sources. *)
Definition rerank (grade : list string → option (string → nat))
    (batch_size top_n : nat) (fused : list string) : Reranked :=
  let '(graded, ungraded) :=
    grade_batches grade 0 (partition_batches batch_size fused) in
  mkReranked
    (take top_n (map g_node (merge_sort (λ a b, Is_true (graded_before a b)) graded)
                   ++ ungraded))
    ungraded.

(** The grading call for this batch failed after its retries. *)
Definition grading_failed (grade : list string → option (string → nat))
    (b : list string) : bool :=
  match grade b with
  | None => true
  | Some _ => false
  end.

(** The reranker's order, said as a proposition. *)
Definition graded_order (a b : Graded) : Prop :=
  g_score b < g_score a ∨ (g_score a = g_score b ∧ g_pos a ≤ g_pos b).

End Rerank.

Module Refresh.

(** Modelled from the spec: the parts of the index snapshot of sections 3 and
    6 that the incremental refresh reads and writes: the docstore (node id to
    content hash), the graph store, and the checkpoint's completion flag; the
    body of the refresh is missing from the sources. *)
Record Snapshot := mkSnapshot {
  docstore : gmap string N;
  graph_store : list Triplet;
  completion : bool
}.

(** Modelled from the spec: "nodes are diffed by id against the stored
    docstore using content hash; only nodes that are new or whose hash
    changed are re-extracted"; missing from the sources. *)
Definition needs_extraction (hash : pystr → N) (snap : Snapshot) (n : Node) : bool :=
  match docstore snap !! node_id n with
  | None => true
  | Some h => negb (h =? hash (node_text n))%N
  end.

(** The docstore written for a node sequence. *)
Definition docstore_of (hash : pystr → N) (nodes : list Node) : gmap string N :=
  list_to_map (map (λ n, (node_id n, hash (node_text n))) nodes).

(** Modelled from the spec: the incremental refresh of section 4.1, allowed
    on a COMPLETE snapshot only; it returns the nodes sent to the extraction
    provider and the new snapshot.  "Triplets whose source node id no longer
    exists are removed; unaffected triplets are untouched."  Missing from
    the sources. *)
Definition refresh (hash : pystr → N) (extract : Node → list Triplet)
    (snap : Snapshot) (nodes : list Node) : option (list Node * Snapshot) :=
  if completion snap then
    let todo := List.filter (needs_extraction hash snap) nodes in
    let kept := List.filter (λ t, bool_decide (source_node t ∈ map node_id nodes))
                            (graph_store snap) in
    Some (todo, mkSnapshot (docstore_of hash nodes)
                           (kept ++ flat_map extract todo) true)
  else None.

(** The node is absent from the stored docstore, or stored with another
    content hash. *)
Definition new_or_changed (hash : pystr → N) (snap : Snapshot) (n : Node) : Prop :=
  docstore snap !! node_id n = None
  ∨ ∃ h, docstore snap !! node_id n = Some h ∧ h ≠ hash (node_text n).

End Refresh.

(** A content hash for the examples: the sum of the code points. *)
Definition demo_hash (t : pystr) : N := fold_right N.add 0%N t.


(** One triplet per node, naming the node's content hash. *)
Definition demo_extract (n : Node) : list Triplet :=
  [mkTriplet (node_id n) "hashes to"
     (if (demo_hash (node_text n) <? 320)%N then "small" else "large")
     (node_id n)].

(** A complete snapshot over three files. *)
Definition demo_stored_nodes : list Node :=
  [mkNode "a.md" [111; 108; 100]%N; mkNode "b.md" [98]%N; mkNode "c.md" [99]%N].

Definition demo_snapshot : Refresh.Snapshot :=
  Refresh.mkSnapshot (Refresh.docstore_of demo_hash demo_stored_nodes)
                     (flat_map demo_extract demo_stored_nodes) true.

(** The same files after [a.md] was edited and [c.md] deleted. *)
Definition demo_new_nodes : list Node :=
  [mkNode "a.md" [110; 101; 119]%N; mkNode "b.md" [98]%N].

(** ** The other builders *)

(** [build_gemini_stack] (gemini_rag_builder.py, lines 30-80), run on its own
    storage directory.  The documents are parsed as loaded; both indexes are
    built in one in-memory storage context, the knowledge graph by the
    constructor over all nodes, and written by the single [persist] at the
    end of the branch. *)
Definition build_gemini_stack `{Library} (loaded : list Document) : M bool :=
  let documents := loaded in
  let nodes := get_nodes_from_documents documents in
  d ← get_disk;
  match d with
  | None =>
      _ ← for_each nodes (λ n, emit (Embed n));
      let vector_index := mkVectorIndex nodes in
      kg_index ← insert_nodes (mkKGIndex [] []) nodes;
      _ ← persist (mkStorage (Some vector_index) (Some kg_index));
      mret true
  | Some _ =>
      storage_context ← from_defaults;
      vector_index ← load_vector storage_context;
      kg_index ← load_kg storage_context;
      mret true
  end.

(** [build_rag_index] (rag_builder.py, lines 20-74), run on its own storage
    directory, whose only index is the vector index.  It returns the vector
    index and the nodes the BM25 retriever is built over. *)
Definition build_rag_index `{Library} (loaded : list Document)
    : M (VectorIndex * list Node) :=
  let documents := loaded in
  let nodes := get_nodes_from_documents documents in
  d ← get_disk;
  vector_index ←
    match d with
    | None =>
        _ ← for_each nodes (λ n, emit (Embed n));
        let vector_index := mkVectorIndex nodes in
        _ ← persist (mkStorage (Some vector_index) None);
        mret vector_index
    | Some _ =>
        storage_context ← from_defaults;
        load_vector storage_context
    end;
  mret (vector_index, nodes).

(** ** The server at work (mcp_rag_server.py) *)

(** The module globals a running server holds, the storage directory, and
    every provider call and write made since it started. *)
Record Server := mkServer {
  engine : QueryEngine;
  server_disk : Disk;
  server_log : list event
}.

(** [reindex()] run to its end (lines 25-30), the reader loading [loaded]:
    [engine = build_comprehensive_stack(incremental=True)].  When the build
    raises, the assignment does not happen, and nobody reads the future that
    [run_coroutine_threadsafe] returned: the server goes on with the engine
    it had. *)
Definition reindex_once `{Library} (s : Server) (loaded : list Document) : Server :=
  match run CHECKPOINT_INTERVAL true loaded (server_disk s) with
  | (w, Some rebuilt) => mkServer rebuilt (disk w) (server_log s ++ log w)
  | (w, None) => mkServer (engine s) (disk w) (server_log s ++ log w)
  end.

(** One re-index after the other, as the loop runs them. *)
Definition after_changes `{Library} (s : Server) (changes : list (list Document))
    : Server :=
  fold_left reindex_once changes s.

(** The server [main] leaves, if it serves at all. *)
Definition started `{Library} (loaded : list Document) (d : Disk) : option Server :=
  match main loaded d with
  | (w, Serving e) => Some (mkServer e (disk w) (log w))
  | (_, Exited _) => None
  end.

Inductive tool_error :=
| AttributeError
| ValueError (msg : string)
| QueryRaised.

Record TextContent := mkTextContent {
  content_type : string;
  content_text : string
}.

(** [handle_call_tool] (lines 66-79).  [arguments] is [dict | None]; [ask q]
    is [str(engine.query(q))], [None] when the query raises; the first
    component lists the queries handed to the engine. *)
Definition handle_call_tool (ask : option string → option string)
    (name : string) (arguments : option (gmap string string))
    : list (option string) * (tool_error + list TextContent) :=
  if String.eqb name "query_bakkesmod_sdk" then
    match arguments with
    | None => ([], inl AttributeError)
    | Some args =>
        let query := args !! "query" in
        match ask query with
        | None => ([query], inl QueryRaised)
        | Some response => ([query], inr [mkTextContent "text" response])
        end
    end
  else ([], inl (ValueError ("Tool not found: " +:+ name))).

(** ** The evaluation script (evaluator.py) *)

Record Response := mkResponse {
  answer : string;
  contexts : list pystr
}.

Definition test_queries : list string :=
  ["How do I get the velocity of the ball?";
   "What wrapper is used for player cars?";
   "How do I hook the goal scored event?";
   "What is the difference between PERMISSION_ALL and PERMISSION_MENU?";
   "How do I set the rotation of an ActorWrapper?"].

(** The loop [for query in test_queries] (lines 27-33): the queries handed
    to the engine, and the collected results unless a query raised. *)
Fixpoint ask_all (ask : string → option Response) (queries : list string)
    (results : list (string * Response))
    : list string * option (list (string * Response)) :=
  match queries with
  | [] => ([], Some results)
  | query :: rest =>
      match ask query with
      | None => ([query], None)
      | Some response =>
          let '(asked, out) := ask_all ask rest (results ++ [(query, response)]) in
          (query :: asked, out)
      end
  end.

(** [run_evaluation]: the world after the build, the queries asked, and the
    lines of the report ([Q: ...], [Sources used: ...]), printed after the
    loop only. *)
Definition run_evaluation `{Library}
    (query : QueryEngine → string → option Response)
    (loaded : list Document) (d : Disk)
    : World * list string * option (list (string * nat)) :=
  match run CHECKPOINT_INTERVAL false loaded d with
  | (w, None) => (w, [], None)
  | (w, Some e) =>
      let '(asked, out) := ask_all (query e) test_queries [] in
      (w, asked, map (λ qr : string * Response, (qr.1, length (contexts qr.2))) <$> out)
  end.

(** ** Counting on the event loop *)

Definition count_scheduled (evs : list loop_event) : nat :=
  length (List.filter (λ e, match e with Scheduled => true | _ => false end) evs).

Definition count_started (evs : list loop_event) : nat :=
  length (List.filter (λ e, match e with RebuildStart => true | _ => false end) evs).

Definition count_ended (evs : list loop_event) : nat :=
  length (List.filter (λ e, match e with RebuildEnd => true | _ => false end) evs).

(** The calls of [build_comprehensive_stack] a coroutine body still holds. *)
Definition builds_in (body : list instr) : nat :=
  length (List.filter (λ i, match i with ICallBuild _ => true | _ => false end) body).

(** Rebuilds asked for and not yet started. *)
Definition pending_rebuilds (l : Loop) : nat :=
  from_option builds_in 0 (current l) + sum_list (map builds_in (ready l)).

(** The moves the loop thread needs to run a ready callback from start to
    end: taking it, one per instruction, one more to come back from each
    synchronous call, and dropping it. *)
Definition ticks_of (body : list instr) : nat :=
  1 + length body + builds_in body + 1.

(** The moves the loop thread needs until it is idle with an empty queue. *)
Definition ticks_left (l : Loop) : nat :=
  match current l with
  | Some body => (if building l then 1 else 0) + length body + builds_in body + 1
  | None => 0
  end + sum_list (map ticks_of (ready l)).

(** The books of the loop: every rebuild asked for has started or is still
    pending, and every rebuild started has ended unless the thread is in it. *)
Definition loop_books (l : Loop) : Prop :=
  count_scheduled (history l) = count_started (history l) + pending_rebuilds l
  ∧ count_started (history l)
    = count_ended (history l) + (if building l then 1 else 0)
  ∧ (current l = None → building l = false).

(** The notifications [on_modified] acts on. *)
Definition accepted (a : action) : bool :=
  match a with
  | Notify ev => negb (is_directory ev) && endswith (src_path ev) ".md"
  | Tick => false
  end.

(** What an audit that runs to its end prints and does, in order. *)
Definition green_audit : list sevent :=
  [Result 1 true; Result 2 true; ApiCall "openai"; ApiCall "anthropic";
   Result 3 true; Result 4 true; Result 5 true; Built; Queried; Result 6 true].


(** What an audit that runs to its end has found on the host. *)
Definition audit_conditions `{Library} (h : Host) : Prop :=
  (∀ key, key ∈ keys → is_Some (environ h !! key))
  ∧ (∃ listing f, docs_listing h = Some listing
                  ∧ f ∈ listing ∧ endswith f.1 ".md" = true)
  ∧ (∃ k, environ h !! "OPENAI_API_KEY" = Some k ∧ openai_accepts h k = true)
  ∧ (∃ k, environ h !! "ANTHROPIC_API_KEY" = Some k ∧ anthropic_accepts h k = true)
  ∧ imports_ok h = true
  ∧ storage_has h "docstore.json" = true
  ∧ storage_has h "default__vector_store.json" = true
  ∧ ∃ w engine response,
      run CHECKPOINT_INTERVAL false (host_docs h) (host_disk h) = (w, Some engine)
      ∧ engine_query h engine test_query = Some response
      ∧ 20 ≤ String.length response.

(** ** The server's start and the credentials

    mcp_rag_server.py, lines 36-42, around comprehensive_rag.py, lines 45-48,
    80, 98 and 120.  Neither file reads the environment or hands a key to a
    client: the clients constructed at lines 45-48 take theirs from the
    environment.  Embedding (line 80) and extraction (lines 98 and 120) both
    go to OpenAI, the provider the audit tries with [OPENAI_API_KEY]; the
    Anthropic client of line 48 is constructed and not called before the
    first query; no Google client is constructed. *)

(** Whether the constructors of lines 45-48 return: theirs to decide, from
    the OpenAI and the Anthropic variable. *)
Definition Clients : Type := option string → option string → bool.

(** OpenAI answers the calls made with the key of the environment. *)
Definition openai_answers (h : Host) : bool :=
  match environ h !! "OPENAI_API_KEY" with
  | Some k => openai_accepts h k
  | None => false
  end.

(** One call to a provider: it returns, or the client raises once its
    retries are used up. *)
Definition provider_call (answers : bool) (e : event) : M unit :=
  if answers then emit e else raise.

(** Step 3 (lines 76-87), the embedding calls being calls to the provider. *)
Definition vector_phase_on (answers : bool) (nodes : list Node)
    : M (VectorIndex * option Storage) :=
  d ← get_disk;
  match d with
  | None =>
      _ ← put_disk (Some (mkStorage None None));
      _ ← emit MakeDirs;
      _ ← for_each nodes (λ n, provider_call answers (Embed n));
      let vector_index := mkVectorIndex nodes in
      _ ← persist (mkStorage (Some vector_index) None);
      mret (vector_index, None)
  | Some _ =>
      storage_context ← from_defaults;
      vector_index ← load_vector storage_context;
      mret (vector_index, Some storage_context)
  end.

(** [kg_index.insert_nodes(batch)] (line 120), one call per node. *)
Definition insert_nodes_on `{Library} (answers : bool) (kg : KGIndex)
    (batch : list Node) : M KGIndex :=
  _ ← for_each batch (λ n, provider_call answers (Extract n));
  mret (mkKGIndex (kg_nodes kg ++ batch)
                  (kg_triplets kg ++ flat_map extract_triplets batch)).

(** The loop of lines 115-124. *)
Fixpoint kg_batches_on `{Library} (answers : bool) (interval : nat) (ctx : Storage)
    (nodes : list Node) (indices : list nat) (kg_index : KGIndex) : M KGIndex :=
  match indices with
  | [] => mret kg_index
  | i :: rest =>
      let batch := slice nodes i (i + interval) in
      kg_index' ← insert_nodes_on answers kg_index batch;
      _ ← persist (mkStorage (st_vector ctx) (Some kg_index'));
      _ ← emit (CheckpointSaved (i + length batch));
      kg_batches_on answers interval ctx nodes rest kg_index'
  end.

(** The handler of lines 100-124. *)
Definition fresh_build_on `{Library} (answers : bool) (interval : nat)
    (storage_context : option Storage) (nodes : list Node) : M KGIndex :=
  match storage_context with
  | None => raise
  | Some ctx =>
      match py_range 0 (length nodes) interval with
      | None => raise
      | Some indices =>
          kg_batches_on answers interval ctx nodes indices (mkKGIndex [] [])
      end
  end.

(** The [try:] body of lines 93-99; the extraction calls [refresh_ref] makes
    are calls to the provider, and the first that fails ends it. *)
Definition load_and_refresh_on `{Library} (answers : bool) (incremental : bool)
    (ctx : Storage) (documents : list Document) : M KGIndex :=
  kg_index ← load_kg ctx;
  if incremental then
    let '(extracted, refreshed) := refresh_ref kg_index documents in
    _ ← for_each extracted (λ n, provider_call answers (Extract n));
    match refreshed with
    | None => raise
    | Some kg_index' =>
        _ ← persist (mkStorage (st_vector ctx) (Some kg_index'));
        mret kg_index'
    end
  else mret kg_index.

(** Step 4 (lines 92-124). *)
Definition kg_phase_on `{Library} (answers : bool) (interval : nat)
    (incremental : bool) (documents : list Document) (nodes : list Node)
    (storage_context : option Storage) : M KGIndex :=
  bound ← try_except (ctx ← from_defaults; mret (Some ctx)) (mret None);
  match bound with
  | None => fresh_build_on answers interval storage_context nodes
  | Some ctx =>
      try_except (load_and_refresh_on answers incremental ctx documents)
                 (fresh_build_on answers interval (Some ctx) nodes)
  end.

(** [build_comprehensive_stack] on a host: the constructors of lines 45-48
    first (the one of line 142 is that of line 47 again), then the build,
    its provider calls answered or not as OpenAI takes the host's key. *)
Definition build_on `{Library} (clients : Clients) (h : Host) (interval : nat)
    (incremental : bool) (loaded : list Document) : M QueryEngine :=
  _ ← (if clients (environ h !! "OPENAI_API_KEY") (environ h !! "ANTHROPIC_API_KEY")
       then mret tt else raise);
  let documents := cleaned_docs loaded in
  let nodes := get_nodes_from_documents documents in
  '(vector_index, storage_context) ← vector_phase_on (openai_answers h) nodes;
  kg_index ← kg_phase_on (openai_answers h) interval incremental documents nodes
                         storage_context;
  mret (mkQueryEngine vector_index kg_index nodes 10 5 5).

(** [main] up to [server.run] (lines 36-42) on a host. *)
Definition main_on `{Library} (clients : Clients) (h : Host) : World * ServerState :=
  match build_on clients h CHECKPOINT_INTERVAL true (host_docs h)
                 (mkWorld (host_disk h) []) with
  | (w, Some engine) => (w, Serving engine)
  | (w, None) => (w, Exited 1)
  end.

(** The storage directory is absent, or holds a vector index. *)
Definition directory_usable (h : Host) : Prop :=
  host_disk h = None ∨ ∃ s v, host_disk h = Some s ∧ st_vector s = Some v.

(** The initial build has no call to make to a provider: there is no node,
    or a graph is stored and its refresh returns without an extraction. *)
Definition no_provider_call_needed `{Library} (h : Host) : Prop :=
  nodes_of (host_docs h) = []
  ∨ ∃ s kg kg', host_disk h = Some s ∧ st_kg s = Some kg
                ∧ refresh_ref kg (cleaned_docs (host_docs h)) = ([], Some kg').

(** Any of the three credentials missing or turned down stops the server
    before it serves. *)
Definition fatal_server_startup_claim `{Library} : Prop :=
  ∀ (clients : Clients) (h : Host) (key : string),
    key ∈ keys →
    environ h !! key = None ∨ credential_rejected h key →
    (main_on clients h).2 = Exited 1.

(** Constructors that insist on finding their two variables. *)
Definition strict_clients : Clients :=
  λ openai_key anthropic_key,
    bool_decide (is_Some openai_key) && bool_decide (is_Some anthropic_key).

(** A machine whose OpenAI and Anthropic keys are in order and which has no
    Google variable at all; nothing is stored on it yet. *)
Definition host_without_google_key : Host := {|
  environ := <["OPENAI_API_KEY" := "sk-live"]>
             (<["ANTHROPIC_API_KEY" := "sk-ant-live"]> ∅);
  openai_accepts := λ _, true;
  anthropic_accepts := λ _, true;
  google_accepts := λ _, false;
  docs_listing := Some [("a.md", [35; 32; 97]%N)];
  imports_ok := true;
  storage_has := λ _, false;
  host_disk := None;
  host_docs := demo_docs;
  engine_query := λ _ _, Some "Use CarWrapper::SetRotation."
|}.

(** A machine without any of the three variables, on the storage directory
    a finished build left. *)
Definition host_without_any_key : Host := {|
  environ := ∅;
  openai_accepts := λ _, false;
  anthropic_accepts := λ _, false;
  google_accepts := λ _, false;
  docs_listing := Some [("a.md", [35; 32; 97]%N)];
  imports_ok := true;
  storage_has := λ _, true;
  host_disk := demo_built_disk;
  host_docs := demo_docs;
  engine_query := λ _ _, Some "Use CarWrapper::SetRotation."
|}.

(** A library whose [refresh_ref] raises after one extraction call. *)
Definition library_with_failing_refresh : Library := {|
  isprintable c := (32 <=? c)%N && (c <? 127)%N;
  get_nodes_from_documents := one_node_per_document;
  extract_triplets n := [mkTriplet (node_id n) "documents" "topic" (node_id n)];
  refresh_ref kg docs := (take 1 (one_node_per_document docs), None)
|}.

(** ** Theorems *)

(** *** Running the monad *)

Section BuilderFacts.
Context `{Library}.

Lemma bind_run {A B} (m : M A) (f : A → M B) (w : World) :
  (m ≫= f) w = match m w with
               | (w', Some a) => f a w'
               | (w', None) => (w', None)
               end.
Proof. reflexivity. Qed.

Lemma for_each_emit {A} (f : A → event) (xs : list A) (w : World) :
  for_each xs (λ x, emit (f x)) w = (mkWorld (disk w) (log w ++ map f xs), Some tt).
Proof.
  revert w. induction xs as [|x xs IH]; intros [d l]; simpl.
  - by rewrite app_nil_r.
  - rewrite bind_run. simpl. rewrite IH. simpl. by rewrite <- app_assoc.
Qed.

Lemma persist_run (s : Storage) (w : World) :
  persist s w = (mkWorld (Some s) (log w ++ [Persist s]), Some tt).
Proof. reflexivity. Qed.

Lemma insert_nodes_run (kg : KGIndex) (batch : list Node) (w : World) :
  insert_nodes kg batch w
  = (mkWorld (disk w) (log w ++ map Extract batch), Some (kg_extend kg batch)).
Proof. unfold insert_nodes. rewrite bind_run, for_each_emit. reflexivity. Qed.

(** *** Sanitising *)

Lemma cleaned_docs_map (documents : list Document) :
  cleaned_docs documents
  = map (λ doc, mkDocument (clean_text (text doc)) (metadata doc)) documents.
Proof.
  unfold cleaned_docs.
  enough (Hgen : ∀ acc, fold_left
            (λ acc doc, acc ++ [mkDocument (clean_text (text doc)) (metadata doc)])
            documents acc
          = acc ++ map (λ doc, mkDocument (clean_text (text doc)) (metadata doc)) documents)
    by apply (Hgen []).
  induction documents as [|d ds IH]; intros acc; simpl.
  - by rewrite app_nil_r.
  - rewrite IH. by rewrite <- app_assoc.
Qed.

Lemma keep_char_allowed (c : N) : keep_char c = true ↔ allowed c.
Proof.
  unfold keep_char, allowed. rewrite orb_true_iff, existsb_exists.
  split.
  - intros [Hp | (x & Hin & Heq)]; [by left | right].
    apply N.eqb_eq in Heq. subst. by apply list_elem_of_In.
  - intros [Hp | Hw]; [by left | right].
    exists c. split; [by apply list_elem_of_In | apply N.eqb_refl].
Qed.

Lemma clean_text_allowed (t : pystr) : Forall allowed (clean_text t).
Proof.
  apply Forall_forall. intros c Hc. apply list_elem_of_In in Hc.
  apply filter_In in Hc. apply keep_char_allowed, Hc.
Qed.

Lemma clean_text_fixed (t : pystr) : Forall allowed t → clean_text t = t.
Proof.
  induction 1 as [|c t Hc _ IH]; [done|].
  unfold clean_text in *. simpl.
  apply keep_char_allowed in Hc. by rewrite Hc, IH.
Qed.

End BuilderFacts.

(** *** The two phases of the builder *)

Section Phases.
Context `{Library}.

Lemma vector_phase_fresh (nodes : list Node) (l : list event) :
  vector_phase nodes (mkWorld None l)
  = (mkWorld (Some (mkStorage (Some (mkVectorIndex nodes)) None))
             (l ++ [MakeDirs] ++ map Embed nodes
                ++ [Persist (mkStorage (Some (mkVectorIndex nodes)) None)]),
     Some (mkVectorIndex nodes, None)).
Proof.
  unfold vector_phase. do 3 (rewrite bind_run; simpl).
  rewrite bind_run, for_each_emit. simpl. rewrite bind_run, persist_run. simpl.
  by rewrite <- !app_assoc.
Qed.

Lemma vector_phase_existing (nodes : list Node) (s : Storage) (l : list event) :
  vector_phase nodes (mkWorld (Some s) l)
  = (mkWorld (Some s) l,
     match st_vector s with
     | Some v => Some (v, Some s)
     | None => None
     end).
Proof.
  unfold vector_phase, load_vector. rewrite bind_run; simpl.
  rewrite bind_run; simpl. rewrite bind_run. by destruct (st_vector s).
Qed.

Lemma replay_app (d : Disk) (evs evs' : list event) :
  replay d (evs ++ evs') = replay (replay d evs) evs'.
Proof. apply fold_left_app. Qed.

Lemma extract_calls_app (evs evs' : list event) :
  extract_calls (evs ++ evs') = extract_calls evs ++ extract_calls evs'.
Proof. apply flat_map_app. Qed.

Lemma embed_calls_app (evs evs' : list event) :
  embed_calls (evs ++ evs') = embed_calls evs ++ embed_calls evs'.
Proof. apply flat_map_app. Qed.

Lemma extract_calls_Extract (ns : list Node) : extract_calls (map Extract ns) = ns.
Proof. induction ns as [|n ns IH]; simpl; congruence. Qed.

Lemma embed_calls_Extract (ns : list Node) : embed_calls (map Extract ns) = [].
Proof. induction ns as [|n ns IH]; simpl; congruence. Qed.

Lemma extract_calls_Embed (ns : list Node) : extract_calls (map Embed ns) = [].
Proof. induction ns as [|n ns IH]; simpl; congruence. Qed.

Lemma embed_calls_Embed (ns : list Node) : embed_calls (map Embed ns) = ns.
Proof. induction ns as [|n ns IH]; simpl; congruence. Qed.

Lemma replay_Extract (d : Disk) (ns : list Node) : replay d (map Extract ns) = d.
Proof. induction ns as [|n ns IH]; simpl; auto. Qed.

Lemma replay_Embed (d : Disk) (ns : list Node) : replay d (map Embed ns) = d.
Proof. induction ns as [|n ns IH]; simpl; auto. Qed.

(** The index once all of [bs] has been inserted. *)
Lemma kg_nodes_fold_extend (bs : list (list Node)) (kg : KGIndex) :
  kg_nodes (fold_left kg_extend bs kg) = kg_nodes kg ++ concat bs.
Proof.
  revert kg. induction bs as [|b bs IH]; intros kg; simpl.
  - by rewrite app_nil_r.
  - rewrite IH. simpl. by rewrite <- app_assoc.
Qed.

(** The loop over the range walks the batches of the partition. *)
Lemma kg_batches_run (B : nat) (ctx : Storage) (nodes : list Node) :
  0 < B →
  ∀ (fuel i : nat) (kg : KGIndex) (w : World),
    length (kg_nodes kg) = i ∨ length nodes ≤ i →
    let bs := batches fuel B (drop i nodes) in
    let trace := checkpointed_trace (st_vector ctx) kg bs in
    kg_batches B ctx nodes (range_from fuel i (length nodes) B) kg w
    = (mkWorld (replay (disk w) trace) (log w ++ trace),
       Some (fold_left kg_extend bs kg)).
Proof.
  intros HB. induction fuel as [|fuel IH]; intros i kg [d l] Hinv; simpl.
  { by rewrite app_nil_r. }
  destruct (Nat.ltb_spec i (length nodes)) as [Hlt | Hge].
  - destruct Hinv as [Hlen | Hbad]; [|lia].
    destruct (drop i nodes) as [|n0 rest] eqn:Hdrop.
    { apply (f_equal length) in Hdrop. rewrite length_drop in Hdrop.
      simpl in Hdrop. lia. }
    simpl kg_batches. rewrite bind_run, insert_nodes_run. simpl.
    rewrite bind_run, persist_run. simpl. rewrite bind_run. simpl.
    unfold slice. replace (i + B - i) with B by lia. rewrite Hdrop.
    assert (Hrest : drop B (n0 :: rest) = drop (i + B) nodes).
    { rewrite <- Hdrop. by rewrite drop_drop. }
    rewrite Hrest.
    rewrite IH.
    + simpl. rewrite replay_app, replay_Extract. simpl.
      rewrite length_app, Hlen.
      f_equal. f_equal. rewrite <- !app_assoc. simpl. reflexivity.
    + simpl. rewrite length_app, length_take, <- Hdrop, length_drop. lia.
  - assert (Hnil : drop i nodes = []) by (apply drop_ge; lia).
    rewrite Hnil. simpl. by rewrite app_nil_r.
Qed.

Lemma batches_concat {A} (B : nat) :
  0 < B → ∀ (fuel : nat) (l : list A), length l ≤ fuel → concat (batches fuel B l) = l.
Proof.
  intros HB. induction fuel as [|fuel IH]; intros l Hlen.
  - destruct l; [done | simpl in Hlen; lia].
  - destruct l as [|x l]; [done|].
    cbn [batches concat]. rewrite IH.
    + apply take_drop.
    + rewrite length_drop. simpl in *. lia.
Qed.

Lemma batches_sizes {A} (B fuel : nat) (l : list A) :
  0 < B → Forall (λ b, 0 < length b ≤ B) (batches fuel B l).
Proof.
  intros HB. revert l. induction fuel as [|fuel IH]; intros l; [constructor|].
  destruct l as [|x l]; [constructor|].
  cbn [batches]. constructor; [|apply IH].
  rewrite length_take. simpl. lia.
Qed.

Lemma fresh_build_run (B : nat) (ctx : Storage) (nodes : list Node) (w : World) :
  0 < B →
  let bs := partition_batches B nodes in
  let trace := checkpointed_trace (st_vector ctx) (mkKGIndex [] []) bs in
  fresh_build B (Some ctx) nodes w
  = (mkWorld (replay (disk w) trace) (log w ++ trace),
     Some (fold_left kg_extend bs (mkKGIndex [] []))).
Proof.
  intros HB. unfold fresh_build, py_range, partition_batches.
  destruct (Nat.eqb_spec B 0) as [-> | _]; [lia|].
  rewrite kg_batches_run by (done || by left). by rewrite drop_0.
Qed.

(** The four ways step 4 can go on an existing storage directory. *)
Lemma kg_phase_absent (B : nat) (incremental : bool) (documents : list Document)
    (nodes : list Node) (bound : option Storage) (s : Storage) (l : list event) :
  st_kg s = None →
  kg_phase B incremental documents nodes bound (mkWorld (Some s) l)
  = fresh_build B (Some s) nodes (mkWorld (Some s) l).
Proof.
  intros Hkg. unfold kg_phase, try_except, load_and_refresh, load_kg.
  rewrite bind_run. simpl. rewrite bind_run, Hkg. reflexivity.
Qed.

Lemma kg_phase_loaded (B : nat) (documents : list Document) (nodes : list Node)
    (bound : option Storage) (s : Storage) (kg : KGIndex) (l : list event) :
  st_kg s = Some kg →
  kg_phase B false documents nodes bound (mkWorld (Some s) l)
  = (mkWorld (Some s) l, Some kg).
Proof.
  intros Hkg. unfold kg_phase, try_except, load_and_refresh, load_kg.
  rewrite bind_run. simpl. rewrite bind_run, Hkg. reflexivity.
Qed.

Lemma kg_phase_refreshed (B : nat) (documents : list Document) (nodes : list Node)
    (bound : option Storage) (s : Storage) (kg kg' : KGIndex)
    (extracted : list Node) (l : list event) :
  st_kg s = Some kg →
  refresh_ref kg documents = (extracted, Some kg') →
  kg_phase B true documents nodes bound (mkWorld (Some s) l)
  = (mkWorld (Some (mkStorage (st_vector s) (Some kg')))
             (l ++ map Extract extracted
                ++ [Persist (mkStorage (st_vector s) (Some kg'))]),
     Some kg').
Proof.
  intros Hkg Href. unfold kg_phase, try_except, load_and_refresh, load_kg.
  rewrite bind_run. simpl. rewrite bind_run, Hkg. simpl. rewrite Href.
  rewrite bind_run, for_each_emit. simpl.
  by rewrite <- app_assoc.
Qed.

Lemma kg_phase_refresh_raised (B : nat) (documents : list Document)
    (nodes : list Node) (bound : option Storage) (s : Storage) (kg : KGIndex)
    (extracted : list Node) (l : list event) :
  st_kg s = Some kg →
  refresh_ref kg documents = (extracted, None) →
  kg_phase B true documents nodes bound (mkWorld (Some s) l)
  = fresh_build B (Some s) nodes (mkWorld (Some s) (l ++ map Extract extracted)).
Proof.
  intros Hkg Href. unfold kg_phase, try_except, load_and_refresh, load_kg.
  rewrite bind_run. simpl. rewrite bind_run, Hkg. simpl. rewrite Href.
  rewrite bind_run, for_each_emit. reflexivity.
Qed.

End Phases.

(** *** What an interrupted fresh build leaves behind *)

Section Interruption.
Context `{Library}.

Lemma vector_only_observed (evs : list event) :
  Forall vector_only evs →
  ∀ (d : Disk) (a : nat),
    processed_count d = 0 →
    processed_count (replay d evs) = 0
    ∧ extract_calls evs = []
    ∧ announced a evs = a.
Proof.
  unfold announced.
  induction 1 as [|e evs He _ IH]; intros d a Hd; [done|].
  destruct e as [| | |s|]; simpl in *; try done; try (apply IH; done).
  apply IH. destruct s as [v kg]. simpl in He. by subst.
Qed.

Lemma announced_app (a : nat) (evs evs' : list event) :
  announced a (evs ++ evs') = announced (announced a evs) evs'.
Proof. apply fold_left_app. Qed.

Lemma announced_Extract (ns : list Node) (a : nat) :
  announced a (map Extract ns) = a.
Proof. revert a. induction ns as [|n ns IH]; intros a; simpl; auto. Qed.

(** At every point of the batching loop: the announced count is on disk, what
    is on disk has been extracted, and extraction is less than one batch
    ahead of the disk. *)
Lemma checkpointed_trace_durable (B : nat) (vec : option VectorIndex)
    (bs : list (list Node)) :
  Forall (λ b, 0 < length b ≤ B) bs →
  ∀ (done : KGIndex) (d0 : Disk) (pre0 : list event) (k : nat),
    processed_count (replay d0 pre0) = length (kg_nodes done) →
    length (extract_calls pre0) = length (kg_nodes done) →
    last_checkpoint pre0 ≤ length (kg_nodes done) →
    let pre := pre0 ++ take k (checkpointed_trace vec done bs) in
    last_checkpoint pre ≤ processed_count (replay d0 pre)
    ∧ processed_count (replay d0 pre) ≤ length (extract_calls pre)
    ∧ length (extract_calls pre) ≤ processed_count (replay d0 pre) + B.
Proof.
  unfold last_checkpoint. cbn zeta.
  induction 1 as [|b bs Hb _ IH]; intros done d0 pre0 k Hp He Ha.
  { cbn [checkpointed_trace]. rewrite take_nil, app_nil_r. lia. }
  cbn [checkpointed_trace].
  set (done' := kg_extend done b).
  rewrite take_app, length_map, firstn_map.
  rewrite !announced_app, !replay_app, !extract_calls_app, !length_app.
  rewrite announced_Extract, replay_Extract, extract_calls_Extract, He.
  destruct (k - length b) as [|[|k']] eqn:Hk; cbn [take].
  - clear IH. simpl. rewrite Hp, length_take.
    pose proof (Nat.le_min_r k (length b)). lia.
  - clear IH. simpl. rewrite length_app, (take_ge b k) by lia. lia.
  - rewrite (take_ge b k) by lia.
    specialize (IH done' d0
      (pre0 ++ map Extract b
         ++ [Persist (mkStorage vec (Some done'));
             CheckpointSaved (length (kg_nodes done'))]) k').
    cbn zeta in IH.
    rewrite !announced_app, !replay_app, !extract_calls_app, !length_app in IH.
    rewrite announced_Extract, replay_Extract, extract_calls_Extract, He in IH.
    cbn [take app]. simpl in IH |- *. rewrite length_app in IH. rewrite length_app.
    rewrite Nat.add_0_r in IH. rewrite Nat.add_assoc. apply IH; lia.
Qed.


Lemma run_fresh (B : nat) (incremental : bool) (loaded : list Document) :
  0 < B →
  let nodes := nodes_of loaded in
  run B incremental loaded None
  = (mkWorld (replay None (fresh_trace B nodes)) (fresh_trace B nodes),
     Some (mkQueryEngine (mkVectorIndex nodes)
             (fold_left kg_extend (partition_batches B nodes) (mkKGIndex [] []))
             nodes 10 5 5)).
Proof.
  intros HB nodes. unfold run, build_with. fold (nodes_of loaded). fold nodes.
  rewrite bind_run, vector_phase_fresh. cbn [app].
  rewrite bind_run, kg_phase_absent by done.
  rewrite fresh_build_run by done. cbn [disk log st_vector].
  unfold fresh_trace. rewrite !replay_app, replay_Embed.
  unfold mret, M_ret. f_equal. f_equal. simpl. by rewrite <- app_assoc.
Qed.

Lemma fresh_trace_vector_part (B : nat) (nodes : list Node) :
  Forall vector_only
    ([MakeDirs] ++ map Embed nodes
       ++ [Persist (mkStorage (Some (mkVectorIndex nodes)) None)]).
Proof.
  apply Forall_app. split; [by repeat constructor|].
  apply Forall_app. split; [|by repeat constructor].
  apply Forall_forall. intros e He. apply list_elem_of_In, in_map_iff in He.
  by destruct He as (n & <- & _).
Qed.


End Interruption.

(** *** The builder's claims *)

Section BuilderClaims.
Context `{Library}.

Lemma embed_calls_checkpointed (vec : option VectorIndex) (bs : list (list Node)) :
  ∀ acc, embed_calls (checkpointed_trace vec acc bs) = [].
Proof.
  induction bs as [|b bs IH]; intros acc; [done|].
  cbn [checkpointed_trace].
  rewrite !embed_calls_app, embed_calls_Extract, IH. reflexivity.
Qed.

Lemma extract_calls_checkpointed (vec : option VectorIndex) (bs : list (list Node)) :
  ∀ acc, extract_calls (checkpointed_trace vec acc bs) = concat bs.
Proof.
  induction bs as [|b bs IH]; intros acc; [done|].
  cbn [checkpointed_trace concat].
  rewrite !extract_calls_app, extract_calls_Extract, IH. reflexivity.
Qed.

Lemma fresh_build_no_embed (B : nat) (ctx : Storage) (nodes : list Node) (w : World) :
  embed_calls (log (fresh_build B (Some ctx) nodes w).1) = embed_calls (log w).
Proof.
  destruct (decide (0 < B)) as [HB | HB].
  - rewrite fresh_build_run by done. simpl.
    by rewrite embed_calls_app, embed_calls_checkpointed, app_nil_r.
  - replace B with 0 by lia. reflexivity.
Qed.

(** Step 4 never calls the embedding provider. *)
Lemma kg_phase_no_embed (B : nat) (incremental : bool) (documents : list Document)
    (nodes : list Node) (bound : option Storage) (s : Storage) (l : list event) :
  embed_calls (log (kg_phase B incremental documents nodes bound
                      (mkWorld (Some s) l)).1)
  = embed_calls l.
Proof.
  destruct (st_kg s) as [kg|] eqn:Hkg.
  - destruct incremental.
    + destruct (refresh_ref kg documents) as [extracted [kg'|]] eqn:Href.
      * rewrite (kg_phase_refreshed _ _ _ _ _ _ _ _ _ Hkg Href). simpl.
        rewrite !embed_calls_app, embed_calls_Extract. simpl. by rewrite app_nil_r.
      * rewrite (kg_phase_refresh_raised _ _ _ _ _ _ _ _ Hkg Href).
        rewrite fresh_build_no_embed. simpl.
        by rewrite embed_calls_app, embed_calls_Extract, app_nil_r.
    + by rewrite (kg_phase_loaded _ _ _ _ _ _ _ Hkg).
  - rewrite kg_phase_absent by done. apply fresh_build_no_embed.
Qed.

(** The log of a whole run is that of its two phases. *)
Lemma run_log_existing (B : nat) (incremental : bool) (loaded : list Document)
    (s : Storage) (v : VectorIndex) :
  st_vector s = Some v →
  log (run B incremental loaded (Some s)).1
  = log (kg_phase B incremental (cleaned_docs loaded) (nodes_of loaded) (Some s)
           (mkWorld (Some s) [])).1.
Proof.
  intros Hv. unfold run, build_with. fold (nodes_of loaded).
  rewrite bind_run, vector_phase_existing, Hv.
  rewrite bind_run.
  by destruct (kg_phase _ _ _ _ _ _) as [w' [kg|]].
Qed.

(** C5.  A build started from nothing with batch size [B]: the nodes are cut
    into contiguous batches of at most [B]; the run's trace is, batch after
    batch, the batch's extraction calls, then the write of the snapshot that
    holds every batch so far, then the announcement of the new count; the run
    ends with the whole graph built.  At every moment of the run the
    announced count is at most the count on disk, the count on disk is at
    most the number of nodes extracted, and extraction is never more than one
    batch ahead of the disk. *)
Theorem durability_before_progress (B : nat) (incremental : bool)
    (loaded : list Document) :
  0 < B →
  let nodes := nodes_of loaded in
  let bs := partition_batches B nodes in
  let r := run B incremental loaded None in
  (concat bs = nodes ∧ Forall (λ b, 0 < length b ≤ B) bs)
  ∧ log r.1
    = [MakeDirs] ++ map Embed nodes
        ++ [Persist (mkStorage (Some (mkVectorIndex nodes)) None)]
        ++ checkpointed_trace (Some (mkVectorIndex nodes)) (mkKGIndex [] []) bs
  ∧ disk r.1 = replay None (log r.1)
  ∧ (∃ engine, r.2 = Some engine ∧ kg_nodes (qe_kg engine) = nodes)
  ∧ ∀ k, let pre := take k (log r.1) in
      last_checkpoint pre ≤ processed_count (replay None pre)
      ∧ processed_count (replay None pre) ≤ length (extract_calls pre)
      ∧ length (extract_calls pre) ≤ processed_count (replay None pre) + B.
Proof.
  intros HB nodes bs r. subst r. rewrite run_fresh by done. fold nodes.
  assert (Hcat : concat bs = nodes)
    by (apply batches_concat; [done | reflexivity]).
  assert (Hsz : Forall (λ b, 0 < length b ≤ B) bs) by (by apply batches_sizes).
  split_and!; try done.
  - eexists. split; [reflexivity|]. simpl.
    by rewrite kg_nodes_fold_extend.
  - intros k. cbn [fst log]. unfold fresh_trace. fold bs.
    rewrite !app_assoc, <- (app_assoc [MakeDirs]).
    set (vp := [MakeDirs] ++ map Embed nodes ++ _).
    rewrite take_app.
    pose proof (fresh_trace_vector_part B nodes) as Hvp. fold vp in Hvp.
    destruct (vector_only_observed (take k vp) (Forall_take _ _ _ Hvp) None 0 eq_refl)
      as (H0 & He & Ha).
    apply (checkpointed_trace_durable B _ bs Hsz); simpl.
    + exact H0.
    + by rewrite He.
    + unfold last_checkpoint. lia.
Qed.


(** C7, as the code has it.  On a storage directory that exists the builder
    never calls the embedding provider, so no node with an unchanged content
    hash is embedded again; without a storage directory every node is
    embedded, once and in order. *)
Theorem persisted_vector_index_not_reembedded (B : nat) (incremental : bool)
    (loaded : list Document) :
  (∀ s, embed_calls (log (run B incremental loaded (Some s)).1) = [])
  ∧ embed_calls (log (run B incremental loaded None).1) = nodes_of loaded.
Proof.
  split.
  - intros s. destruct (st_vector s) as [v|] eqn:Hv.
    + rewrite (run_log_existing _ _ _ _ v) by done. apply kg_phase_no_embed.
    + unfold run, build_with.
      rewrite bind_run, vector_phase_existing, Hv. reflexivity.
  - unfold run, build_with. fold (nodes_of loaded).
    rewrite bind_run, vector_phase_fresh. cbn [app].
    rewrite bind_run.
    match goal with |- context [kg_phase ?b ?i ?ds ?ns ?bd (mkWorld (Some ?s) ?l)] =>
      pose proof (kg_phase_no_embed b i ds ns bd s l) as Hk;
      destruct (kg_phase b i ds ns bd (mkWorld (Some s) l)) as [w' [kg|]]
    end; simpl in Hk |- *; rewrite Hk;
      rewrite embed_calls_app, embed_calls_Embed; apply app_nil_r.
Qed.

(** C10.  Every text handed to the node parser consists of characters that
    are printable or one of newline, carriage return and tab; sanitising a
    sanitised text changes nothing; and when the parser puts into its nodes
    only characters of the documents it was given, the same holds of every
    node's content. *)
Theorem sanitization_invariant (loaded : list Document) :
  Forall (λ n, Forall (λ c, Exists (λ d, c ∈ text d) (cleaned_docs loaded))
                      (node_text n))
         (nodes_of loaded) →
  Forall (λ d, Forall allowed (text d)) (cleaned_docs loaded)
  ∧ (∀ t, clean_text (clean_text t) = clean_text t)
  ∧ Forall (λ n, Forall allowed (node_text n)) (nodes_of loaded).
Proof.
  intros Hparser.
  assert (Hdocs : Forall (λ d, Forall allowed (text d)) (cleaned_docs loaded)).
  { rewrite cleaned_docs_map. apply Forall_forall. intros d Hd.
    apply list_elem_of_In, in_map_iff in Hd. destruct Hd as (d0 & <- & _).
    apply clean_text_allowed. }
  split_and!; [done | |].
  - intros t. apply clean_text_fixed, clean_text_allowed.
  - eapply Forall_impl; [exact Hparser|]. intros n Hn. simpl in Hn.
    eapply Forall_impl; [exact Hn|]. intros c Hc. simpl in Hc.
    apply Exists_exists in Hc. destruct Hc as (d & Hd & Hc).
    rewrite Forall_forall in Hdocs. specialize (Hdocs d Hd).
    rewrite Forall_forall in Hdocs. by apply Hdocs.
Qed.

End BuilderClaims.

(** *** The builder on concrete inputs *)

(** Three nodes in batches of two: two checkpoints, at 2 and at 3. *)
Example fresh_build_two_checkpoints :
  map (λ e, match e with
            | Extract n => node_id n
            | Persist s => "persist"
            | CheckpointSaved c => if c =? 2 then "checkpoint 2" else "checkpoint 3"
            | _ => ""
            end)
      (drop 5 (log (run (H:=demo_library) 2 true demo_docs None).1))
  = ["a.md"; "b.md"; "persist"; "checkpoint 2"; "c.md"; "persist"; "checkpoint 3"].
Proof. reflexivity. Qed.

(** 1200 nodes with the interval of the source: checkpoints at 500, 1000 and
    1200.  Killed right after the first of them (event 1704 of the trace) and
    started again with [incremental] unset, the builder extracts nothing, and
    the graph it serves holds 500 nodes. *)
Example resume_at_500_of_1200 :
  let first_run := run (H:=demo_library) CHECKPOINT_INTERVAL true corpus_1200 None in
  let d := replay None (take 1704 (log first_run.1)) in
  let second_run := run (H:=demo_library) CHECKPOINT_INTERVAL false corpus_1200 d in
  checkpoints (log first_run.1) = [500; 1000; 1200]
  ∧ processed_count d = 500
  ∧ extract_calls (log second_run.1) = []
  ∧ (λ e, length (kg_nodes (qe_kg e))) <$> second_run.2 = Some 500.
Proof. vm_compute. repeat split. Qed.

(** The BEL character of the first file is dropped, its newline kept. *)
Example sanitised_first_document :
  map text (cleaned_docs (H:=demo_library) demo_docs) = [[97; 10]; [98]; [99]]%N.
Proof. reflexivity. Qed.

Lemma durability_before_progress_witness :
  0 < 2
  ∧ ∀ k, let pre := take k (log (run (H:=demo_library) 2 true demo_docs None).1) in
      last_checkpoint pre ≤ processed_count (replay None pre)
      ∧ processed_count (replay None pre) ≤ length (extract_calls pre)
      ∧ length (extract_calls pre) ≤ processed_count (replay None pre) + 2.
Proof.
  split; [lia|].
  exact (proj2 (proj2 (proj2 (proj2
    (durability_before_progress (H:=demo_library) 2 true demo_docs
       (le_S 1 1 (le_n 1))))))).
Defined.



(** The claim of the specification fails when a file's content changed: the
    persisted index is loaded and the new content is not embedded. *)
Lemma embedding_cost_avoidance_counterexample :
  ¬ embedding_cost_avoidance_claim (H:=demo_library).
Proof.
  intros Hclaim.
  specialize (Hclaim 2 true [mkDocument [110; 101; 119]%N [("file_path", "a.md")]]
                (mkVectorIndex [mkNode "a.md" [111; 108; 100]%N]) None).
  vm_compute in Hclaim. discriminate Hclaim.
Qed.

Lemma demo_parser_keeps_characters :
  Forall (λ n, Forall (λ c, Exists (λ d, c ∈ text d)
                                   (cleaned_docs (H:=demo_library) demo_docs))
                      (node_text n))
         (nodes_of (H:=demo_library) demo_docs).
Proof. by apply (bool_decide_unpack _). Defined.

Lemma sanitization_invariant_witness :
  Forall (λ n, Forall (λ c, Exists (λ d, c ∈ text d)
                                   (cleaned_docs (H:=demo_library) demo_docs))
                      (node_text n))
         (nodes_of (H:=demo_library) demo_docs)
  ∧ Forall (λ d, Forall (allowed (H:=demo_library)) (text d))
           (cleaned_docs (H:=demo_library) demo_docs)
  ∧ Forall (λ n, Forall (allowed (H:=demo_library)) (node_text n))
           (nodes_of (H:=demo_library) demo_docs).
Proof.
  split; [exact demo_parser_keeps_characters|].
  destruct (sanitization_invariant (H:=demo_library) demo_docs
              demo_parser_keeps_characters) as (Hdocs & _ & Hnodes).
  exact (conj Hdocs Hnodes).
Defined.

(** *** The diagnostics script and the server's start *)

Section Startup.
Context `{Library}.

(** Step 1 stops the audit as soon as one of the three variables is unset. *)
Lemma check_environment_missing (h : Host) (key : string) :
  key ∈ keys → environ h !! key = None →
  check_environment h = ([Result 1 false], None).
Proof.
  intros Hkey Hnone. unfold check_environment, keys in *. cbn [d_for].
  destruct (environ h !! "OPENAI_API_KEY") as [k1|] eqn:H1;
    destruct (environ h !! "ANTHROPIC_API_KEY") as [k2|] eqn:H2;
    destruct (environ h !! "GOOGLE_API_KEY") as [k3|] eqn:H3;
    try reflexivity.
  repeat (apply elem_of_cons in Hkey as [-> | Hkey]); try congruence.
  by apply elem_of_nil in Hkey.
Qed.

Lemma run_diagnostics_missing_key (h : Host) (key : string) :
  key ∈ keys → environ h !! key = None →
  run_diagnostics h = ([Result 1 false], None).
Proof.
  intros Hkey Hnone. unfold run_diagnostics.
  by rewrite (check_environment_missing h key).
Qed.

(** Sequencing in the audit: after a step that returns, the next one runs. *)
Lemma D_bind_ok {A B} (evs : list sevent) (a : A) (f : A → D B) :
  ((evs, Some a) : D A) ≫= f = (evs ++ (f a).1, (f a).2).
Proof. unfold mbind, D_bind. by destruct (f a). Qed.

(** An explicit list of events without a query. *)
Ltac no_query :=
  let Hin := fresh "Hin" in
  intros Hin;
  repeat (apply elem_of_cons in Hin as [Hin | Hin]; [discriminate Hin|]);
  by apply elem_of_nil in Hin.

Lemma audit_docs_quiet (h : Host) : Queried ∉ (audit_docs h).1.
Proof.
  unfold audit_docs. destruct (docs_listing h) as [listing|]; [|no_query].
  case_bool_decide; no_query.
Qed.

(** A rejected OpenAI or Anthropic key ends [audit_api_health]. *)
Lemma audit_api_health_rejected (h : Host) (key : string) :
  key = "OPENAI_API_KEY" ∨ key = "ANTHROPIC_API_KEY" →
  credential_rejected h key →
  (audit_api_health h).2 = None ∧ Queried ∉ (audit_api_health h).1.
Proof.
  intros Hkey (k & Hk & Hrej). unfold audit_api_health, api_check.
  destruct Hkey as [-> | ->];
    destruct Hrej as [[Heq Hno] | [[Heq Hno] | [Heq Hno]]]; try discriminate Heq.
  - rewrite Hk. cbn. rewrite Hno. cbn. split; [done | no_query].
  - rewrite Hk.
    destruct (environ h !! "OPENAI_API_KEY") as [k1|]; cbn; [|split; [done | no_query]].
    destruct (openai_accepts h k1); cbn; rewrite ?Hno; cbn; (split; [done | no_query]).
Qed.

Lemma check_environment_quiet (h : Host) : Queried ∉ (check_environment h).1.
Proof.
  unfold check_environment, keys. cbn [d_for].
  destruct (environ h !! "OPENAI_API_KEY");
    destruct (environ h !! "ANTHROPIC_API_KEY");
    destruct (environ h !! "GOOGLE_API_KEY"); no_query.
Qed.

(** A quiet step followed by steps that stop quietly stops quietly. *)
Lemma D_bind_aborts {A B} (m : D A) (f : A → D B) :
  Queried ∉ m.1 →
  m.2 = None ∨ (∀ a, aborts_before_query (f a)) →
  aborts_before_query (m ≫= f).
Proof.
  destruct m as [evs [a|]]; intros Hq Hstop.
  - destruct Hstop as [Hnone | Hf]; [discriminate Hnone|].
    rewrite D_bind_ok. destruct (Hf a) as [Hnone Hq'].
    split; [exact Hnone|]. simpl in *. rewrite elem_of_app. tauto.
  - split; [reflexivity | exact Hq].
Qed.

Lemma CHECKPOINT_INTERVAL_pos : 0 < CHECKPOINT_INTERVAL.
Proof. unfold CHECKPOINT_INTERVAL. lia. Qed.

(** *** The server's start on a host *)

(** A refused provider ends a loop at its first call. *)
Lemma for_each_refused {A} (f : A → event) (xs : list A) (w : World) :
  for_each xs (λ x, provider_call false (f x)) w
  = (w, match xs with [] => Some tt | _ :: _ => None end).
Proof. by destruct xs. Qed.

Lemma kg_batches_on_answered (B : nat) (ctx : Storage) (nodes : list Node)
    (indices : list nat) :
  ∀ (kg : KGIndex) (w : World),
    kg_batches_on true B ctx nodes indices kg w = kg_batches B ctx nodes indices kg w.
Proof.
  induction indices as [|i rest IH]; intros kg w; [reflexivity|].
  cbn [kg_batches_on kg_batches]. rewrite !bind_run.
  change (insert_nodes_on true kg (slice nodes i (i + B)))
    with (insert_nodes kg (slice nodes i (i + B))).
  rewrite insert_nodes_run. rewrite !bind_run, !persist_run. cbn [emit].
  rewrite !bind_run. cbn [emit]. apply IH.
Qed.

Lemma fresh_build_on_answered (B : nat) (bound : option Storage)
    (nodes : list Node) (w : World) :
  fresh_build_on true B bound nodes w = fresh_build B bound nodes w.
Proof.
  unfold fresh_build_on, fresh_build. destruct bound as [ctx|]; [|reflexivity].
  destruct (py_range 0 (length nodes) B) as [indices|]; [|reflexivity].
  apply kg_batches_on_answered.
Qed.

Lemma kg_phase_on_answered (B : nat) (incremental : bool)
    (documents : list Document) (nodes : list Node) (bound : option Storage)
    (w : World) :
  kg_phase_on true B incremental documents nodes bound w
  = kg_phase B incremental documents nodes bound w.
Proof.
  unfold kg_phase_on, kg_phase. rewrite !bind_run.
  destruct (try_except _ _ w) as [w' [[ctx|]|]];
    [| apply fresh_build_on_answered | reflexivity].
  unfold try_except.
  change (load_and_refresh_on true incremental ctx documents)
    with (load_and_refresh incremental ctx documents).
  destruct (load_and_refresh incremental ctx documents w') as [w'' [kg|]];
    [reflexivity | apply fresh_build_on_answered].
Qed.

(** With constructors that return and a provider that answers, the build on
    a host is the build. *)
Lemma build_on_answered (clients : Clients) (h : Host) (B : nat)
    (incremental : bool) (loaded : list Document) (w : World) :
  clients (environ h !! "OPENAI_API_KEY") (environ h !! "ANTHROPIC_API_KEY") = true →
  openai_answers h = true →
  build_on clients h B incremental loaded w = build_with B incremental loaded w.
Proof.
  intros Hc Ha. unfold build_on, build_with. rewrite Hc, Ha.
  rewrite bind_run. cbn [mret M_ret].
  change (vector_phase_on true ?ns) with (vector_phase ns).
  rewrite !bind_run. destruct (vector_phase _ w) as [w' [[v ctx]|]]; [|reflexivity].
  rewrite !bind_run. by rewrite kg_phase_on_answered.
Qed.

(** The same build with a provider that turns the key down. *)
Lemma vector_phase_refused (nodes : list Node) (l : list event) :
  vector_phase_on false nodes (mkWorld None l)
  = match nodes with
    | [] => vector_phase [] (mkWorld None l)
    | _ :: _ => (mkWorld (Some (mkStorage None None)) (l ++ [MakeDirs]), None)
    end.
Proof. by destruct nodes. Qed.

Lemma fresh_build_refused (B : nat) (ctx : Storage) (nodes : list Node) (w : World) :
  0 < B →
  fresh_build_on false B (Some ctx) nodes w
  = (w, match nodes with [] => Some (mkKGIndex [] []) | _ :: _ => None end).
Proof.
  intros HB. unfold fresh_build_on, py_range.
  destruct (Nat.eqb_spec B 0) as [-> | _]; [lia|].
  destruct nodes as [|n nodes]; [reflexivity|].
  destruct B as [|B']; [lia|]. reflexivity.
Qed.

Lemma kg_phase_refused (B : nat) (documents : list Document) (nodes : list Node)
    (bound : option Storage) (s : Storage) (l : list event) :
  0 < B →
  kg_phase_on false B true documents nodes bound (mkWorld (Some s) l)
  = match st_kg s with
    | Some kg =>
        match refresh_ref kg documents with
        | ([], Some kg') =>
            (mkWorld (Some (mkStorage (st_vector s) (Some kg')))
                     (l ++ [Persist (mkStorage (st_vector s) (Some kg'))]),
             Some kg')
        | _ => (mkWorld (Some s) l,
                match nodes with [] => Some (mkKGIndex [] []) | _ :: _ => None end)
        end
    | None => (mkWorld (Some s) l,
               match nodes with [] => Some (mkKGIndex [] []) | _ :: _ => None end)
    end.
Proof.
  intros HB. destruct B as [|B']; [lia|].
  unfold kg_phase_on, try_except, load_and_refresh_on, load_kg.
  rewrite bind_run. simpl. rewrite bind_run.
  destruct (st_kg s) as [kg|]; [|by destruct nodes].
  cbn [mret M_ret].
  by destruct (refresh_ref kg documents) as [[|n extracted] [kg'|]], nodes.
Qed.

(** An absent OpenAI key and one that OpenAI turns down come to the same:
    no call is answered. *)
Lemma openai_refused_spec (h : Host) :
  environ h !! "OPENAI_API_KEY" = None ∨ credential_rejected h "OPENAI_API_KEY"
  ↔ openai_answers h = false.
Proof.
  unfold openai_answers, credential_rejected. split.
  - intros [-> | (k & -> & [[_ Hno] | [[Heq _] | [Heq _]]])];
      [done | done | discriminate Heq..].
  - destruct (environ h !! "OPENAI_API_KEY") as [k|] eqn:Hk; [|by left].
    intros Hno. right. exists k. split; [done|]. by left.
Qed.

(** The start of the server when no call is answered, case by case. *)
Lemma main_on_refused (clients : Clients) (h : Host) :
  clients (environ h !! "OPENAI_API_KEY") (environ h !! "ANTHROPIC_API_KEY") = true →
  openai_answers h = false →
  main_on clients h
  = let nodes := nodes_of (host_docs h) in
    match host_disk h with
    | None =>
        match nodes with
        | [] =>
            (mkWorld (Some (mkStorage (Some (mkVectorIndex [])) None))
                     [MakeDirs; Persist (mkStorage (Some (mkVectorIndex [])) None)],
             Serving (mkQueryEngine (mkVectorIndex []) (mkKGIndex [] []) [] 10 5 5))
        | _ :: _ => (mkWorld (Some (mkStorage None None)) [MakeDirs], Exited 1)
        end
    | Some s =>
        match st_vector s with
        | None => (mkWorld (Some s) [], Exited 1)
        | Some v =>
            let without_graph :=
              (mkWorld (Some s) [],
               match nodes with
               | [] => Serving (mkQueryEngine v (mkKGIndex [] []) [] 10 5 5)
               | _ :: _ => Exited 1
               end) in
            match st_kg s with
            | Some kg =>
                match refresh_ref kg (cleaned_docs (host_docs h)) with
                | ([], Some kg') =>
                    (mkWorld (Some (mkStorage (Some v) (Some kg')))
                             [Persist (mkStorage (Some v) (Some kg'))],
                     Serving (mkQueryEngine v kg' nodes 10 5 5))
                | _ => without_graph
                end
            | None => without_graph
            end
        end
    end.
Proof.
  intros Hc Ha. unfold main_on, build_on. rewrite Hc, Ha.
  rewrite bind_run. cbn [mret M_ret]. fold (nodes_of (host_docs h)).
  cbn zeta. rewrite bind_run.
  destruct (host_disk h) as [s|].
  - change (vector_phase_on false ?ns (mkWorld (Some s) []))
      with (vector_phase ns (mkWorld (Some s) [])).
    rewrite vector_phase_existing.
    destruct (st_vector s) as [v|] eqn:Hv; [|reflexivity].
    rewrite bind_run, kg_phase_refused by apply CHECKPOINT_INTERVAL_pos.
    rewrite Hv.
    destruct (st_kg s) as [kg|].
    + by destruct (refresh_ref kg (cleaned_docs (host_docs h)))
        as [[|n extracted] [kg'|]], (nodes_of (host_docs h)).
    + by destruct (nodes_of (host_docs h)).
  - rewrite vector_phase_refused.
    destruct (nodes_of (host_docs h)) as [|n nodes]; [|reflexivity].
    rewrite vector_phase_fresh.
    rewrite bind_run, kg_phase_refused by apply CHECKPOINT_INTERVAL_pos.
    reflexivity.
Qed.

(** What is known of the host, taken apart. *)
Ltac start_facts :=
  repeat match goal with
         | H : _ ∧ _ |- _ => destruct H
         | H : _ ∨ _ |- _ => destruct H
         | H : ex _ |- _ => destruct H
         end;
  simplify_eq; congruence.

(** The directory is usable and the build needs no provider. *)
Ltac start_possible :=
  split; [first [by left | right; eauto] | first [by left | right; eauto 10]].

(** One conjunct of one case of the start. *)
Ltac start_case :=
  let Hn := fresh "Hn" in
  let HP := fresh "HP" in
  first
    [ done
    | by (intros _ Hn; first [reflexivity | destruct Hn])
    | split; [intros _; start_possible | intros _; by eexists]
    | split; [by intros [? [=]] | intros HP; exfalso; start_facts]
    | split; [done | intros HP; destruct HP; start_possible]
    | split; [intros _ HP; start_facts | done] ].

(** C8, as the code has it.  The audit: for each of the three keys, when the
    variable is unset the audit stops at its first step, before any provider
    call, build or query; when the OpenAI or the Anthropic key is set but
    turned down by its provider, the audit stops before its query.  (Nothing
    is promised for a Google key that is set but not accepted.)

    The server checks no credential itself; what stops it is an exception of
    its initial build, which [main] turns into exit code 1 before anything is
    served.  So: when a constructor of the clients raises, the server exits
    with code 1 having done nothing.  When the OpenAI key is absent or
    turned down, no provider call of the build returns and the server serves
    exactly when the build needed none (a usable storage directory, and no
    node or a stored graph whose refresh extracts nothing); otherwise it
    exits with code 1, and a first start on a machine without storage
    directory leaves the directory created and empty.  With constructors
    that return and a key OpenAI accepts, the start is that of [main].  The
    start depends on the environment only through the OpenAI and the
    Anthropic variable: the Google key plays no part in it. *)
Theorem fatal_on_missing_or_checked_credentials (h : Host) (key : string) :
  key ∈ keys →
  (environ h !! key = None → run_diagnostics h = ([Result 1 false], None))
  ∧ (key ≠ "GOOGLE_API_KEY" → credential_rejected h key →
     aborts_before_query (run_diagnostics h))
  ∧ ∀ clients : Clients,
      let constructed :=
        clients (environ h !! "OPENAI_API_KEY") (environ h !! "ANTHROPIC_API_KEY") in
      let r := main_on clients h in
      (constructed = false → r = (mkWorld (host_disk h) [], Exited 1))
      ∧ (constructed = true → openai_answers h = true →
         r = main (host_docs h) (host_disk h))
      ∧ (constructed = true →
         environ h !! "OPENAI_API_KEY" = None
         ∨ credential_rejected h "OPENAI_API_KEY" →
         ((∃ e, r.2 = Serving e) ↔ directory_usable h ∧ no_provider_call_needed h)
         ∧ (r.2 = Exited 1 ↔ ¬ (directory_usable h ∧ no_provider_call_needed h))
         ∧ embed_calls (log r.1) = [] ∧ extract_calls (log r.1) = []
         ∧ (host_disk h = None → nodes_of (host_docs h) ≠ [] →
            r = (mkWorld (Some (mkStorage None None)) [MakeDirs], Exited 1)))
      ∧ ∀ h' : Host,
          environ h' !! "OPENAI_API_KEY" = environ h !! "OPENAI_API_KEY" →
          environ h' !! "ANTHROPIC_API_KEY" = environ h !! "ANTHROPIC_API_KEY" →
          (∀ k, openai_accepts h' k = openai_accepts h k) →
          host_disk h' = host_disk h → host_docs h' = host_docs h →
          main_on clients h' = main_on clients h.
Proof.
  intros Hkey. split_and!.
  - by apply run_diagnostics_missing_key.
  - intros Hng Hrej. unfold run_diagnostics.
    apply D_bind_aborts; [apply check_environment_quiet | right; intros _].
    apply D_bind_aborts; [apply audit_docs_quiet | right; intros _].
    assert (Hwhich : key = "OPENAI_API_KEY" ∨ key = "ANTHROPIC_API_KEY").
    { unfold keys in Hkey.
      repeat (apply elem_of_cons in Hkey as [-> | Hkey]); auto; [done|].
      by apply elem_of_nil in Hkey. }
    destruct (audit_api_health_rejected h key Hwhich Hrej) as [Hnone Hq].
    apply D_bind_aborts; [exact Hq | by left].
  - intros clients constructed r. subst constructed r. split_and!.
    + intros Hc. unfold main_on, build_on. by rewrite Hc.
    + intros Hc Ha. unfold main_on, main, run. by rewrite build_on_answered.
    + intros Hc Ha%openai_refused_spec.
      rewrite (main_on_refused clients h Hc Ha).
      unfold directory_usable, no_provider_call_needed. cbn zeta.
      destruct (host_disk h) as [s|].
      * destruct (st_vector s) as [v|] eqn:Hv.
        -- destruct (st_kg s) as [kg|] eqn:Hkg;
             [destruct (refresh_ref kg (cleaned_docs (host_docs h)))
                as [[|n extracted] [kg'|]] eqn:Href|];
             destruct (nodes_of (host_docs h)) as [|n0 nodes];
             cbn; (split_and!; start_case).
        -- cbn. split_and!; start_case.
      * destruct (nodes_of (host_docs h)) as [|n0 nodes];
          cbn; (split_and!; start_case).
    + intros h' Ho Han Hacc Hd Hdocs. unfold main_on, build_on, openai_answers.
      rewrite Ho, Han, Hd, Hdocs.
      by destruct (environ h !! "OPENAI_API_KEY") as [k|]; rewrite ?Hacc.
Qed.

End Startup.

(** The audit of the first machine runs to its end, query included. *)
Example bad_google_key_passes_the_audit :
  run_diagnostics (H:=demo_library) host_with_bad_google_key
  = ([Result 1 true; Result 2 true; ApiCall "openai"; ApiCall "anthropic";
      Result 3 true; Result 4 true; Result 5 true; Built; Queried; Result 6 true],
     Some tt).
Proof. vm_compute. reflexivity. Qed.

(** With constructors that do not look for their keys, the server starts on
    a finished storage directory without any of the three variables: the
    refresh finds nothing to extract, so no provider is called. *)
Example server_starts_without_any_key :
  let r := main_on (H:=demo_library) (λ _ _, true) host_without_any_key in
  (∃ e, r.2 = Serving e)
  ∧ embed_calls (log r.1) = [] ∧ extract_calls (log r.1) = []
  ∧ Forall (λ key, environ host_without_any_key !! key = None) keys.
Proof.
  split_and!; [by eexists | reflexivity | reflexivity |].
  by repeat constructor.
Qed.

(** The claim of the specification fails, for the audit and for the server.
    A present but invalid third credential passes the audit: its check is
    disabled in the source.  And a machine with no Google variable at all
    starts the server, which constructs no Google client and calls Google
    nowhere: even with constructors that insist on finding their own two
    variables, on a machine without storage directory, the server builds
    and serves. *)
Lemma fatal_startup_counterexample :
  ¬ fatal_startup_claim (H:=demo_library)
  ∧ ¬ fatal_server_startup_claim (H:=demo_library).
Proof.
  split.
  - intros Hclaim.
    destruct (Hclaim host_with_bad_google_key "GOOGLE_API_KEY") as [Hnone _].
    + unfold keys. set_solver.
    + right. exists "revoked". split; [by vm_compute|]. right. right. done.
    + vm_compute in Hnone. discriminate Hnone.
  - intros Hclaim.
    specialize (Hclaim strict_clients host_without_google_key "GOOGLE_API_KEY").
    assert (Hserving :
              ∃ e, (main_on (H:=demo_library) strict_clients host_without_google_key).2
                   = Serving e)
      by (vm_compute; by eexists).
    destruct Hserving as [e He]. rewrite Hclaim in He.
    + discriminate He.
    + unfold keys. set_solver.
    + left. by vm_compute.
Qed.

Lemma fatal_on_missing_or_checked_credentials_witness :
  "OPENAI_API_KEY" ∈ keys
  ∧ environ host_without_openai_key !! "OPENAI_API_KEY" = None
  ∧ run_diagnostics (H:=demo_library) host_without_openai_key
    = ([Result 1 false], None).
Proof.
  assert (Hkey : "OPENAI_API_KEY" ∈ keys) by (unfold keys; apply list_elem_of_here).
  assert (Hnone : environ host_without_openai_key !! "OPENAI_API_KEY" = None)
    by (vm_compute; reflexivity).
  split; [exact Hkey|]. split; [exact Hnone|].
  exact (proj1 (fatal_on_missing_or_checked_credentials (H:=demo_library)
                  host_without_openai_key "OPENAI_API_KEY" Hkey) Hnone).
Defined.

(** *** The event loop *)

Section EventLoop.

Lemma in_flight_app (evs evs' : list loop_event) :
  in_flight (evs ++ evs') = (in_flight evs + in_flight evs')%Z.
Proof.
  induction evs as [|e evs IH]; [done|].
  destruct e; cbn [app in_flight]; rewrite IH; lia.
Qed.

Lemma loop_inv_init : loop_inv loop_init.
Proof. split; reflexivity. Qed.

Lemma loop_inv_act (l : Loop) (a : action) : loop_inv l → loop_inv (act l a).
Proof.
  unfold loop_inv. intros [Hinv Hidle]. destruct a as [ev|]; cbn [act].
  - unfold on_modified. destruct (negb _ && _); cbn; [|done].
    rewrite in_flight_app, Hinv. cbn. split; [lia | exact Hidle].
  - unfold tick. destruct (current l) as [body|].
    + destruct (building l) eqn:Hb.
      * cbn. rewrite in_flight_app, Hinv. done.
      * destruct body as [|[msg|inc] rest]; cbn;
          rewrite ?in_flight_app, ?Hinv; done.
    + rewrite Hidle in * by done.
      destruct (ready l) as [|body rest]; cbn; [by rewrite Hidle|done].
Qed.

Lemma exec_snoc (acts : list action) (a : action) :
  exec (acts ++ [a]) = act (exec acts) a.
Proof. unfold exec. by rewrite fold_left_app. Qed.

Lemma loop_inv_exec (acts : list action) : loop_inv (exec acts).
Proof.
  induction acts as [|a acts IH] using rev_ind; [apply loop_inv_init|].
  rewrite exec_snoc. by apply loop_inv_act.
Qed.

(** One action adds at most one event to the history. *)
Lemma history_act (l : Loop) (a : action) :
  history (act l a) = history l
  ∨ ∃ e, history (act l a) = history l ++ [e].
Proof.
  destruct a as [ev|]; cbn [act].
  - unfold on_modified. destruct (negb _ && _); cbn; eauto.
  - unfold tick. destruct (current l) as [[|[msg|inc] rest]|];
      destruct (building l); try destruct (ready l); cbn; eauto.
Qed.

(** Every moment of an execution is the end of a shorter execution. *)
Lemma history_prefix (acts : list action) (k : nat) :
  ∃ acts', take k (history (exec acts)) = history (exec acts').
Proof.
  induction acts as [|a acts IH] using rev_ind.
  - exists []. by destruct k.
  - rewrite exec_snoc.
    destruct (history_act (exec acts) a) as [Heq | [e Heq]]; rewrite Heq;
      [exact IH|].
    destruct (decide (k ≤ length (history (exec acts)))) as [Hk | Hk].
    + rewrite take_app_le by done. exact IH.
    + exists (acts ++ [a]). rewrite exec_snoc, Heq.
      apply take_ge. rewrite length_app. simpl. lia.
Qed.

(** C9.  Whatever the watcher thread and the loop thread do, and at every
    moment of the execution, at most one rebuild has started and not ended.
    A rebuild is in flight exactly while the loop thread is inside the
    synchronous call; a notification that arrives meanwhile leaves that call
    running, starts nothing, and (for a markdown file) appends one [reindex]
    to the queue of ready callbacks. *)
Theorem rebuilds_serialized (acts : list action) :
  (∀ k, 0 ≤ in_flight (take k (history (exec acts))) ≤ 1)%Z
  ∧ in_flight (history (exec acts)) = (if building (exec acts) then 1 else 0)%Z
  ∧ ∀ ev, building (exec acts) = true →
      let l' := act (exec acts) (Notify ev) in
      building l' = true
      ∧ current l' = current (exec acts)
      ∧ in_flight (history l') = 1%Z
      ∧ ready l' = ready (exec acts)
                   ++ (if negb (is_directory ev) && endswith (src_path ev) ".md"
                       then [reindex] else []).
Proof.
  split_and!.
  - intros k. destruct (history_prefix acts k) as [acts' ->].
    destruct (loop_inv_exec acts') as [-> _]. destruct (building _); lia.
  - apply loop_inv_exec.
  - intros ev Hb l'. subst l'. cbn [act].
    destruct (loop_inv_exec acts) as [Hinv _]. rewrite Hb in Hinv.
    unfold on_modified.
    destruct (negb (is_directory ev) && endswith (src_path ev) ".md"); cbn.
    + rewrite in_flight_app, Hinv. done.
    + by rewrite app_nil_r.
Qed.

End EventLoop.

(** Two changed files in a row: the second rebuild starts after the first
    has ended. *)
Example two_changes_two_rebuilds :
  history (exec (Notify (mkFileEvent false "docs/a.md")
                 :: Notify (mkFileEvent false "docs/b.md")
                 :: Notify (mkFileEvent false "docs/notes.txt")
                 :: replicate 12 Tick))
  = [Scheduled; Scheduled;
     Printed "Re-indexing changed documents..."; RebuildStart; RebuildEnd;
     Printed "Incremental re-index complete.";
     Printed "Re-indexing changed documents..."; RebuildStart; RebuildEnd;
     Printed "Incremental re-index complete."].
Proof. reflexivity. Qed.

Lemma rebuilds_serialized_witness :
  let busy := [Notify (mkFileEvent false "docs/a.md"); Tick; Tick; Tick] in
  building (exec busy) = true
  ∧ ready (act (exec busy) (Notify (mkFileEvent false "docs/b.md"))) = [reindex]
  ∧ in_flight (history (act (exec busy) (Notify (mkFileEvent false "docs/b.md")))) = 1%Z.
Proof.
  intros busy.
  assert (Hb : building (exec busy) = true) by reflexivity.
  split; [exact Hb|].
  destruct (proj2 (proj2 (rebuilds_serialized busy))
              (mkFileEvent false "docs/b.md") Hb) as (_ & _ & Hone & Hready).
  split; [exact Hready | exact Hone].
Defined.

(** *** Reciprocal rank fusion *)

Section FusionFacts.
Import Fusion.

Lemma rank_from_lookup (id : string) (ranking : list string) :
  ∀ (r0 r : nat),
    rank_from r0 id ranking = Some r →
    r0 ≤ r ∧ ranking !! (r - r0) = Some id
    ∧ ∀ j, j < r - r0 → ranking !! j ≠ Some id.
Proof.
  induction ranking as [|x rest IH]; intros r0 r Hr; [discriminate Hr|].
  cbn [rank_from] in Hr. destruct (String.eqb_spec x id) as [-> | Hne].
  - inversion Hr; subst. rewrite Nat.sub_diag. split_and!; [lia | done | lia].
  - destruct (IH _ _ Hr) as (Hle & Hat & Hbefore).
    replace (r - r0) with (S (r - S r0)) by lia.
    split_and!; [lia | exact Hat |].
    intros [|j] Hj; cbn; [congruence|]. apply Hbefore. lia.
Qed.

Lemma rank_from_None (id : string) (ranking : list string) (r0 : nat) :
  rank_from r0 id ranking = None ↔ id ∉ ranking.
Proof.
  revert r0. induction ranking as [|x rest IH]; intros r0; cbn [rank_from].
  - split; [intros _; apply not_elem_of_nil | done].
  - rewrite not_elem_of_cons. destruct (String.eqb_spec x id) as [-> | Hne].
    + split; [discriminate | tauto].
    + rewrite IH. split; [intros ?; split; [congruence | done] | tauto].
Qed.

(** The summand of a node for one retriever, written out: with its first
    occurrence at place [i] counted from 0, its rank is [i + 1] and the
    summand [1 / (i + 1 + 60)]; absent, it adds nothing. *)
Lemma reciprocal_rank_explicit (id : string) (ranking : list string) :
  ∃ p : option nat,
    match p with
    | Some i => ranking !! i = Some id ∧ ∀ j, j < i → ranking !! j ≠ Some id
    | None => id ∉ ranking
    end
    ∧ reciprocal (rank_of id ranking)
      = match p with
        | Some i => (1 # Pos.of_nat (i + 1 + 60))%Q
        | None => 0%Q
        end.
Proof.
  unfold rank_of. destruct (rank_from 1 id ranking) as [r|] eqn:Hr.
  - destruct (rank_from_lookup id ranking 1 r Hr) as (Hle & Hat & Hbefore).
    exists (Some (r - 1)). split; [by split|].
    unfold reciprocal, rrf_c. do 2 f_equal. lia.
  - exists None. split; [by apply (rank_from_None id ranking 1) | reflexivity].
Qed.

Lemma first_seen_from_spec (ids : list string) :
  ∀ seen,
    NoDup (first_seen_from seen ids)
    ∧ (∀ x, x ∈ first_seen_from seen ids ↔ x ∈ ids ∧ x ∉ seen)
    ∧ first_seen_from seen ids `sublist_of` ids.
Proof.
  induction ids as [|y ids IH]; intros seen; cbn [first_seen_from].
  - split_and!; [constructor | | done].
    intros x. split; [by intros ?%elem_of_nil | by intros [?%elem_of_nil _]].
  - case_bool_decide as Hy.
    + destruct (IH seen) as (Hnd & Hin & Hsub). split_and!; [done | | by constructor].
      intros x. rewrite Hin, elem_of_cons. split; [tauto|].
      intros [[-> | Hx] Hns]; [done | tauto].
    + destruct (IH (y :: seen)) as (Hnd & Hin & Hsub).
      split_and!; [| | by constructor].
      * constructor; [|done]. rewrite Hin, not_elem_of_cons. tauto.
      * intros x. rewrite !elem_of_cons, Hin, not_elem_of_cons.
        destruct (decide (x = y)) as [-> | Hne]; tauto.
Qed.

Lemma first_seen_NoDup rankings : NoDup (first_seen rankings).
Proof. apply first_seen_from_spec. Qed.

Lemma first_seen_elem_of rankings (id : string) :
  id ∈ first_seen rankings ↔ ∃ tr, tr ∈ rankings ∧ id ∈ tr.2.
Proof.
  unfold first_seen.
  destruct (first_seen_from_spec (concat (map snd rankings)) []) as (_ & Hin & _).
  rewrite Hin. split.
  - intros [Hc _]. apply list_elem_of_In, in_concat in Hc as (l & Hl & Hid).
    apply in_map_iff in Hl as (tr & <- & Htr).
    exists tr. split; by apply list_elem_of_In.
  - intros (tr & Htr & Hid). split; [|apply not_elem_of_nil].
    apply list_elem_of_In, in_concat. exists tr.2. split.
    + apply in_map_iff. exists tr. split; [done | by apply list_elem_of_In].
    + by apply list_elem_of_In.
Qed.

(** Each candidate is the fused result of the node at its position. *)
Lemma candidates_elem_of rankings (c : Candidate) :
  c ∈ candidates rankings →
  first_seen rankings !! c_pos c = Some (fr_node (c_result c))
  ∧ c_result c = mkFused (fr_node (c_result c))
                         (fused_score rankings (fr_node (c_result c)))
                         (contributing rankings (fr_node (c_result c))).
Proof.
  unfold candidates. intros Hc.
  apply elem_of_lookup_imap in Hc as (i & id & -> & Hi). done.
Qed.

Lemma candidates_nodes rankings :
  map (λ c, fr_node (c_result c)) (candidates rankings) = first_seen rankings.
Proof.
  unfold candidates. generalize (first_seen rankings) as ids.
  intros ids.
  change (map ?f ?l) with (f <$> l). rewrite fmap_imap.
  induction ids as [|x ids IH] using rev_ind; [done|].
  rewrite imap_app. cbn. by rewrite IH.
Qed.

End FusionFacts.

(** *** The fusion order *)

Section FusionOrder.
Import Fusion.

Lemma ranks_before_precedes (a b : Candidate) :
  Is_true (ranks_before a b) ↔ precedes a b.
Proof.
  unfold ranks_before, precedes. cbn zeta.
  destruct (Qcompare_spec (fr_score (c_result a)) (fr_score (c_result b)))
    as [Hs | Hs | Hs];
    [destruct (Nat.compare_spec (length (fr_sources (c_result b)))
                                (length (fr_sources (c_result a)))) as [Hn | Hn | Hn];
     [destruct (Nat.compare_spec (c_pos a) (c_pos b)) as [Hp | Hp | Hp] | |] | |];
    cbn; unfold String.le;
    (split; [intros Hb | intros [Hlt | (Heq & [Hlt | (Hneq & [Hlt | (Hpeq & Hle)])])]]);
    try done; try lra; try lia;
    first [ left; lra
          | right; split; [lra|]; first
              [ left; lia
              | right; split; [lia|]; first [ left; lia | right; split; [lia | done] ] ] ].
Qed.

#[local] Instance precedes_total : Total precedes.
Proof.
  intros a b. unfold precedes. cbn zeta.
  destruct (Qcompare_spec (fr_score (c_result a)) (fr_score (c_result b)))
    as [Hs | Hs | Hs]; [|right; left; lra | left; left; lra].
  destruct (Nat.compare_spec (length (fr_sources (c_result b)))
                             (length (fr_sources (c_result a)))) as [Hn | Hn | Hn];
    [|left; right; split; [lra | left; lia]
     |right; right; split; [lra | left; lia]].
  destruct (Nat.compare_spec (c_pos a) (c_pos b)) as [Hp | Hp | Hp];
    [|left; right; split; [lra | right; split; [lia | left; lia]]
     |right; right; split; [lra | right; split; [lia | left; lia]]].
  destruct (total String.le (fr_node (c_result a)) (fr_node (c_result b))) as [Hle | Hle];
    [left | right]; right; (split; [lra|]); right; (split; [lia|]); right; done.
Qed.

#[local] Instance precedes_trans : Transitive precedes.
Proof.
  intros a b c. unfold precedes. cbn zeta.
  intros [Hab | (Hab & [Hn1 | (Hn1 & [Hp1 | (Hp1 & Hl1)])])]
         [Hbc | (Hbc & [Hn2 | (Hn2 & [Hp2 | (Hp2 & Hl2)])])];
    first [ left; lra
          | right; split; [lra|]; first
              [ left; lia
              | right; split; [lia|]; first
                  [ left; lia
                  | right; split; [lia | by etrans] ] ] ].
Qed.

(** Two candidates that precede each other sit at the same position and
    carry the same node. *)
Lemma precedes_antisym (a b : Candidate) :
  precedes a b → precedes b a →
  c_pos a = c_pos b ∧ fr_node (c_result a) = fr_node (c_result b).
Proof.
  unfold precedes. cbn zeta.
  intros [Hab | (Hab & [Hn1 | (Hn1 & [Hp1 | (Hp1 & Hl1)])])]
         [Hba | (Hba & [Hn2 | (Hn2 & [Hp2 | (Hp2 & Hl2)])])];
    try lra; try lia.
  split; [done | by apply (anti_symm String.le)].
Qed.

#[local] Instance ranks_before_total : Total (λ a b, Is_true (ranks_before a b)).
Proof. intros a b. rewrite !ranks_before_precedes. apply total, _. Qed.

#[local] Instance ranks_before_trans : Transitive (λ a b, Is_true (ranks_before a b)).
Proof.
  intros a b c. rewrite !ranks_before_precedes. apply precedes_trans.
Qed.

Lemma StronglySorted_weaken {A} (R1 R2 : relation A) (l : list A) :
  (∀ x y, R1 x y → R2 x y) → StronglySorted R1 l → StronglySorted R2 l.
Proof.
  intros Himp. induction 1 as [|x l _ IH Hx]; constructor; [done|].
  eapply Forall_impl; [exact Hx | apply Himp].
Qed.

Lemma sorted_candidates_perm rankings :
  sorted_candidates rankings ≡ₚ candidates rankings.
Proof. apply merge_sort_Permutation. Qed.

Lemma sorted_candidates_sorted rankings :
  StronglySorted precedes (sorted_candidates rankings).
Proof.
  apply (StronglySorted_weaken (λ a b, Is_true (ranks_before a b))).
  - intros a b. apply ranks_before_precedes.
  - apply StronglySorted_merge_sort; apply _.
Qed.

(** Among the candidates of one query, the order decides every pair. *)
Lemma candidates_decided rankings (a b : Candidate) :
  a ∈ candidates rankings → b ∈ candidates rankings →
  precedes a b → precedes b a → a = b.
Proof.
  intros Ha Hb Hab Hba.
  destruct (precedes_antisym a b Hab Hba) as [Hpos Hnode].
  destruct (candidates_elem_of rankings a Ha) as [_ Hra].
  destruct (candidates_elem_of rankings b Hb) as [_ Hrb].
  destruct a as [pa ra], b as [pb rb]. cbn in *. subst pb.
  f_equal. rewrite Hra, Hrb, Hnode. reflexivity.
Qed.

Lemma fused_score_three (vector graph lexical : list string) (id : string) :
  Qeq (fused_score [(Vector, vector); (Graph, graph); (Lexical, lexical)] id)
      (reciprocal (rank_of id vector) + reciprocal (rank_of id graph)
       + reciprocal (rank_of id lexical)).
Proof. unfold fused_score. cbn [fold_right snd]. ring. Qed.

(** C2 (spec-modelled).  For every triple of rankings: the fused list holds
    each node some retriever returned, once; a node's fused score is the sum
    over the three retrievers of [1 / (i + 1 + 60)] where the retriever has
    the node first at place [i] counted from 0, that is at rank [i + 1], and
    of nothing where the retriever does not have it; its contributing
    sources are the retrievers that have it; the list is ordered by
    descending score, then by more contributing sources, then by first-seen
    position in the priority vector, graph, lexical, then by node id; that
    order leaves no choice, so the result is determined by the rankings.
    For vector=[a,b,c], graph=[b,a], lexical=[] the fused order is [a,b,c],
    with scores [1/61 + 1/62], [1/62 + 1/61] and [1/63]; for vector=[a,b],
    graph=[b] the score puts [b] before [a], which was seen first; and
    when [b], at rank 62 of two retrievers, ties at [1/61] with [a], at
    rank 1 of one, [b] comes first for its two sources. *)
Theorem reciprocal_rank_fusion (vector graph lexical : list string) :
  let rankings := [(Vector, vector); (Graph, graph); (Lexical, lexical)] in
  let sorted := sorted_candidates rankings in
  let placed := λ (id : string) (ranking : list string) (p : option nat),
    match p with
    | Some i => ranking !! i = Some id ∧ ∀ j, j < i → ranking !! j ≠ Some id
    | None => id ∉ ranking
    end in
  let share := λ p : option nat,
    match p with
    | Some i => (1 # Pos.of_nat (i + 1 + 60))%Q
    | None => 0%Q
    end in
  fuse vector graph lexical = map c_result sorted
  ∧ NoDup (map fr_node (fuse vector graph lexical))
  ∧ (∀ id, id ∈ map fr_node (fuse vector graph lexical)
           ↔ id ∈ vector ∨ id ∈ graph ∨ id ∈ lexical)
  ∧ (∀ f, f ∈ fuse vector graph lexical →
       (∃ pv pg pl : option nat,
          placed (fr_node f) vector pv
          ∧ placed (fr_node f) graph pg
          ∧ placed (fr_node f) lexical pl
          ∧ Qeq (fr_score f) (share pv + share pg + share pl))
       ∧ fr_sources f
         = (if bool_decide (fr_node f ∈ vector) then [Vector] else [])
           ++ (if bool_decide (fr_node f ∈ graph) then [Graph] else [])
           ++ (if bool_decide (fr_node f ∈ lexical) then [Lexical] else []))
  ∧ (∀ c, c ∈ sorted →
       first_seen_from [] (vector ++ graph ++ lexical) !! c_pos c
       = Some (fr_node (c_result c)))
  ∧ StronglySorted precedes sorted
  ∧ (∀ other, other ≡ₚ sorted → Sorted precedes other → other = sorted)
  ∧ map fr_node (fuse ["a"; "b"; "c"] ["b"; "a"] []) = ["a"; "b"; "c"]
  ∧ map (λ f, (fr_node f, Qred (fr_score f))) (fuse ["a"; "b"; "c"] ["b"; "a"] [])
    = [("a", 123 # 3782); ("b", 123 # 3782); ("c", 1 # 63)]%Q
  ∧ map (λ f, (fr_node f, Qred (fr_score f))) (fuse ["a"; "b"] ["b"] [])
    = [("b", 123 # 3782); ("a", 1 # 61)]%Q
  ∧ (let others := map pretty (seq 0 61) in
     drop 61 (map (λ f, (fr_node f, Qred (fr_score f), fr_sources f))
                  (fuse ["a"] (others ++ ["b"]) (others ++ ["b"])))
     = [("b", 1 # 61, [Graph; Lexical]); ("a", 1 # 61, [Vector])]%Q).
Proof.
  intros rankings sorted placed share.
  assert (Hperm : sorted ≡ₚ candidates rankings) by apply sorted_candidates_perm.
  assert (Hnodes : map fr_node (fuse vector graph lexical) ≡ₚ first_seen rankings).
  { unfold fuse, rrf. fold rankings. fold sorted.
    rewrite map_map, <- (candidates_nodes rankings).
    change (map ?f ?l) with (f <$> l). by rewrite Hperm. }
  split_and!.
  - reflexivity.
  - rewrite Hnodes. apply first_seen_NoDup.
  - intros id. rewrite Hnodes, first_seen_elem_of. subst rankings. split.
    + intros (tr & Htr & Hid).
      repeat (apply elem_of_cons in Htr as [-> | Htr]); cbn in Hid; auto.
      by apply elem_of_nil in Htr.
    + intros [Hid | [Hid | Hid]];
        [exists (Vector, vector) | exists (Graph, graph) | exists (Lexical, lexical)];
        (split; [|exact Hid]); repeat constructor.
  - intros f Hf. unfold fuse, rrf in Hf. fold rankings in Hf. fold sorted in Hf.
    apply list_elem_of_In, in_map_iff in Hf as (c & <- & Hc).
    apply list_elem_of_In in Hc. rewrite Hperm in Hc.
    destruct (candidates_elem_of rankings c Hc) as [_ Hres].
    rewrite Hres. cbn [fr_score fr_sources fr_node]. split.
    + destruct (reciprocal_rank_explicit (fr_node (c_result c)) vector)
        as (pv & Hpv & Hsv).
      destruct (reciprocal_rank_explicit (fr_node (c_result c)) graph)
        as (pg & Hpg & Hsg).
      destruct (reciprocal_rank_explicit (fr_node (c_result c)) lexical)
        as (pl & Hpl & Hsl).
      exists pv, pg, pl. split_and!; [exact Hpv | exact Hpg | exact Hpl |].
      subst share. cbn beta. rewrite <- Hsv, <- Hsg, <- Hsl.
      apply fused_score_three.
    + unfold contributing, rankings. cbn.
      by repeat case_bool_decide.
  - intros c Hc. rewrite Hperm in Hc.
    destruct (candidates_elem_of rankings c Hc) as [Hpos _].
    unfold first_seen, rankings in Hpos. cbn in Hpos.
    by rewrite app_nil_r in Hpos.
  - apply sorted_candidates_sorted.
  - intros other Hother Hsorted.
    apply (Sorted_unique_strong precedes); [|done| |done].
    + intros x1 x2 Hx1 Hx2. rewrite Hother, Hperm in Hx1. rewrite Hperm in Hx2.
      by apply (candidates_decided rankings).
    + apply StronglySorted_Sorted, sorted_candidates_sorted.
  - reflexivity.
  - reflexivity.
  - reflexivity.
  - vm_compute. reflexivity.
Qed.

End FusionOrder.

(** In the example the scores of [a] and [b] tie at [1/61 + 1/62]; [a] comes
    first because the vector retriever, first in priority, saw it first. *)
Example fusion_example_tie :
  map (λ f, (Fusion.fr_node f, Qred (Fusion.fr_score f), Fusion.fr_sources f))
      (Fusion.fuse ["a"; "b"; "c"] ["b"; "a"] [])
  = [("a", 123 # 3782, [Fusion.Vector; Fusion.Graph]);
     ("b", 123 # 3782, [Fusion.Vector; Fusion.Graph]);
     ("c", 1 # 63, [Fusion.Vector])]%Q.
Proof. reflexivity. Qed.

(** *** Fusion under retriever failure *)

Section FusionFailure.
Import Fusion.

Lemma Qplus_0_l_eq (q : Q) : (0 + q)%Q = q.
Proof.
  destruct q as [n d]. unfold Qplus. cbn [Qnum Qden].
  f_equal. lia.
Qed.

(** A retriever that failed, and one that returned nothing, weigh the same. *)
Lemma fused_score_cons (tag : source_tag) (ranking : list string) rankings (id : string) :
  fused_score ((tag, ranking) :: rankings) id
  = (reciprocal (rank_of id ranking) + fused_score rankings id)%Q.
Proof. reflexivity. Qed.

Lemma fused_score_padded outcomes (id : string) :
  fused_score (replied outcomes) id = fused_score (padded outcomes) id.
Proof.
  induction outcomes as [|[tag [ranking|]] outcomes IH]; [done | |].
  - change (replied ((tag, Some ranking) :: outcomes))
      with ((tag, ranking) :: replied outcomes).
    change (padded ((tag, Some ranking) :: outcomes))
      with ((tag, ranking) :: padded outcomes).
    by rewrite !fused_score_cons, IH.
  - change (replied ((tag, None) :: outcomes)) with (replied outcomes).
    change (padded ((tag, None) :: outcomes)) with ((tag, []) :: padded outcomes).
    rewrite fused_score_cons, IH. symmetry. apply Qplus_0_l_eq.
Qed.

Lemma contributing_padded outcomes (id : string) :
  contributing (replied outcomes) id = contributing (padded outcomes) id.
Proof.
  unfold contributing.
  induction outcomes as [|[tag [ranking|]] outcomes IH]; [done | |].
  - change (replied ((tag, Some ranking) :: outcomes))
      with ((tag, ranking) :: replied outcomes).
    change (padded ((tag, Some ranking) :: outcomes))
      with ((tag, ranking) :: padded outcomes).
    cbn [List.filter snd]. case_bool_decide; cbn [map]; by rewrite IH.
  - change (replied ((tag, None) :: outcomes)) with (replied outcomes).
    change (padded ((tag, None) :: outcomes)) with ((tag, []) :: padded outcomes).
    cbn [List.filter snd].
    rewrite bool_decide_eq_false_2 by apply not_elem_of_nil. exact IH.
Qed.

Lemma first_seen_padded outcomes :
  first_seen (replied outcomes) = first_seen (padded outcomes).
Proof.
  unfold first_seen. f_equal.
  induction outcomes as [|[tag [ranking|]] outcomes IH]; [done | |].
  - change (replied ((tag, Some ranking) :: outcomes))
      with ((tag, ranking) :: replied outcomes).
    change (padded ((tag, Some ranking) :: outcomes))
      with ((tag, ranking) :: padded outcomes).
    cbn [map concat snd]. by rewrite IH.
  - change (replied ((tag, None) :: outcomes)) with (replied outcomes).
    change (padded ((tag, None) :: outcomes)) with ((tag, []) :: padded outcomes).
    cbn [map concat snd app]. exact IH.
Qed.

Lemma rrf_padded outcomes : rrf (replied outcomes) = rrf (padded outcomes).
Proof.
  unfold rrf, sorted_candidates, candidates. rewrite first_seen_padded.
  do 2 f_equal. apply imap_ext. intros i id _. cbn.
  by rewrite fused_score_padded, contributing_padded.
Qed.

(** C3 (spec-modelled).  When all three retrievers fail the call fails with
    [RetrievalUnavailable], and only then; otherwise it succeeds with the
    reciprocal rank fusion of the rankings of the retrievers that answered,
    which is the fusion of all three with an empty ranking in place of each
    failed one. *)
Theorem fusion_failure_policy (vector graph lexical : option (list string)) :
  retrieve vector graph lexical
  = match vector, graph, lexical with
    | None, None, None => inl RetrievalUnavailable
    | _, _, _ => inr (rrf (answered vector graph lexical))
    end
  ∧ (retrieve vector graph lexical = inl RetrievalUnavailable
     ↔ vector = None ∧ graph = None ∧ lexical = None)
  ∧ answered vector graph lexical
    = (from_option (λ r, [(Vector, r)]) [] vector)
      ++ (from_option (λ r, [(Graph, r)]) [] graph)
      ++ (from_option (λ r, [(Lexical, r)]) [] lexical)
  ∧ rrf (answered vector graph lexical)
    = fuse (default [] vector) (default [] graph) (default [] lexical).
Proof.
  split_and!.
  - by destruct vector, graph, lexical.
  - destruct vector, graph, lexical; cbn; split;
      (done || by intros (? & ? & ?)).
  - by destruct vector, graph, lexical.
  - apply (rrf_padded [(Vector, vector); (Graph, graph); (Lexical, lexical)]).
Qed.

End FusionFailure.

(** The lexical retriever timing out: the fusion of the other two. *)
Example degraded_fusion :
  Fusion.retrieve (Some ["a"; "b"; "c"]) (Some ["b"; "a"]) None
  = inr (Fusion.fuse ["a"; "b"; "c"] ["b"; "a"] []).
Proof. reflexivity. Qed.

(** *** The reranker's fallback *)

Section RerankFacts.
Import Rerank.

Variable grade : list string → option (string → nat).

Lemma graded_before_order (a b : Graded) :
  Is_true (graded_before a b) ↔ graded_order a b.
Proof.
  unfold graded_before, graded_order.
  rewrite Is_true_true, orb_true_iff, andb_true_iff.
  by rewrite Nat.ltb_lt, Nat.eqb_eq, Nat.leb_le.
Qed.

#[local] Instance graded_before_total : Total (λ a b, Is_true (graded_before a b)).
Proof.
  intros a b. rewrite !graded_before_order. unfold graded_order. lia.
Qed.

#[local] Instance graded_before_trans : Transitive (λ a b, Is_true (graded_before a b)).
Proof.
  intros a b c. rewrite !graded_before_order. unfold graded_order. lia.
Qed.

Lemma grade_batches_spec (bs : list (list string)) :
  ∀ offset graded ungraded,
    grade_batches grade offset bs = (graded, ungraded) →
    ungraded = concat (List.filter (grading_failed grade) bs)
    ∧ map g_node graded = concat (List.filter (λ b, negb (grading_failed grade b)) bs)
    ∧ ∀ g, g ∈ graded →
        offset ≤ g_pos g
        ∧ concat bs !! (g_pos g - offset) = Some (g_node g)
        ∧ ∃ b judgment, b ∈ bs ∧ grade b = Some judgment
                        ∧ g_node g ∈ b ∧ g_score g = judgment (g_node g).
Proof.
  induction bs as [|b bs IH]; intros offset graded ungraded Hrun.
  { inversion Hrun; subst. split_and!; [done | done |].
    by intros g ?%elem_of_nil. }
  cbn [grade_batches] in Hrun.
  destruct (grade_batches grade (offset + length b) bs) as [gs us] eqn:Hrest.
  destruct (IH _ _ _ Hrest) as (Hus & Hgs & Hall).
  unfold grade_one, grading_failed in *. cbn [List.filter concat].
  destruct (grade b) as [judgment|] eqn:Hgrade; cbn in Hrun;
    inversion Hrun; subst graded ungraded; cbn [negb concat].
  - split_and!; [done | |].
    + rewrite map_app, Hgs. f_equal.
      change (map ?f ?l) with (f <$> l). rewrite fmap_imap.
      rewrite (imap_ext _ (const id) b) by done.
      by rewrite imap_const, list_fmap_id.
    + intros g [Hg | Hg]%elem_of_app.
      * apply elem_of_lookup_imap in Hg as (i & id & -> & Hi). cbn.
        split_and!; [lia | |].
        -- replace (offset + i - offset) with i by lia.
           by apply lookup_app_l_Some.
        -- exists b, judgment. split_and!; [by left | done | | done].
           by apply list_elem_of_lookup_2 in Hi.
      * destruct (Hall g Hg) as (Hle & Hat & b' & j' & Hb' & Hj' & Hin & Hsc).
        split_and!; [lia | |].
        -- rewrite lookup_app_r by lia.
           by replace (g_pos g - offset - length b)
             with (g_pos g - (offset + length b)) by lia.
        -- exists b', j'. split_and!; [by right | done..].
  - split_and!; [by rewrite Hus | done |].
    intros g Hg.
    destruct (Hall g Hg) as (Hle & Hat & b' & j' & Hb' & Hj' & Hin & Hsc).
    split_and!; [lia | |].
    + rewrite lookup_app_r by lia.
      by replace (g_pos g - offset - length b)
        with (g_pos g - (offset + length b)) by lia.
    + exists b', j'. split_and!; [by right | done..].
Qed.

Lemma concat_filter_sublist {A} (P : list A → bool) (bs : list (list A)) :
  concat (List.filter P bs) `sublist_of` concat bs.
Proof.
  induction bs as [|b bs IH]; [done|]. cbn [List.filter concat].
  destruct (P b); cbn [concat].
  - by apply sublist_app.
  - by apply sublist_inserts_l.
Qed.

(** C4 (spec-modelled).  With the fused candidates cut into batches, the
    reranker returns, cut to [top_n]: first the candidates of the batches
    that were graded, ordered by grading score descending (earlier fused
    position first among equal scores), each with the score its own batch's
    judgment gave it; then the members of the failed batches in their
    original fused order.  It reports those members as not graded, and it
    always returns. *)
Theorem rerank_fallback (batch_size top_n : nat) (fused : list string) :
  0 < batch_size →
  let bs := partition_batches batch_size fused in
  let out := rerank grade batch_size top_n fused in
  ∃ graded : list Graded,
    concat bs = fused
    ∧ not_graded out = concat (List.filter (grading_failed grade) bs)
    ∧ not_graded out `sublist_of` fused
    ∧ map g_node graded
      ≡ₚ concat (List.filter (λ b, negb (grading_failed grade b)) bs)
    ∧ (∀ g, g ∈ graded →
         fused !! g_pos g = Some (g_node g)
         ∧ ∃ b judgment, b ∈ bs ∧ grade b = Some judgment
                         ∧ g_node g ∈ b ∧ g_score g = judgment (g_node g))
    ∧ StronglySorted graded_order graded
    ∧ ranked out = take top_n (map g_node graded ++ not_graded out)
    ∧ length (ranked out) ≤ top_n.
Proof.
  intros Hsize bs out. subst out. unfold rerank. fold bs.
  assert (Hcat : concat bs = fused)
    by (apply batches_concat; [done | reflexivity]).
  destruct (grade_batches grade 0 bs) as [graded ungraded] eqn:Hrun.
  destruct (grade_batches_spec bs 0 graded ungraded Hrun) as (Hus & Hgs & Hall).
  set (R := λ a b : Graded, Is_true (graded_before a b)).
  assert (Hperm : merge_sort R graded ≡ₚ graded) by apply merge_sort_Permutation.
  exists (merge_sort R graded). cbn [ranked not_graded].
  split_and!.
  - exact Hcat.
  - exact Hus.
  - rewrite Hus, <- Hcat. apply concat_filter_sublist.
  - rewrite <- Hgs. change (map ?f ?l) with (f <$> l). by rewrite Hperm.
  - intros g Hg. rewrite Hperm in Hg.
    destruct (Hall g Hg) as (_ & Hat & Hb).
    rewrite Nat.sub_0_r, Hcat in Hat. by split.
  - apply (StronglySorted_weaken R).
    + intros a b. apply graded_before_order.
    + apply StronglySorted_merge_sort; apply _.
  - reflexivity.
  - rewrite length_take. lia.
Qed.

End RerankFacts.

(** The grading provider of the example: a batch holding ["down"] fails; any
    other batch gets the length of each candidate as its score. *)
Example rerank_one_failed_batch :
  Rerank.rerank
    (λ b, if bool_decide ("down" ∈ b) then None else Some String.length)
    2 10 ["a"; "bbb"; "cc"; "dddd"; "e"; "down"; "gg"]
  = Rerank.mkReranked ["dddd"; "bbb"; "cc"; "gg"; "a"; "e"; "down"] ["e"; "down"].
Proof. reflexivity. Qed.

Lemma rerank_fallback_witness :
  0 < 2
  ∧ Rerank.not_graded
      (Rerank.rerank
         (λ b, if bool_decide ("down" ∈ b) then None else Some String.length)
         2 10 ["a"; "bbb"; "cc"; "dddd"; "e"; "down"; "gg"])
    `sublist_of` ["a"; "bbb"; "cc"; "dddd"; "e"; "down"; "gg"].
Proof.
  split; [exact (le_S 1 1 (le_n 1))|].
  destruct (rerank_fallback
              (λ b, if bool_decide ("down" ∈ b) then None else Some String.length)
              2 10 ["a"; "bbb"; "cc"; "dddd"; "e"; "down"; "gg"]
              (le_S 1 1 (le_n 1))) as (graded & _ & _ & Hsub & _).
  exact Hsub.
Defined.

(** *** Incremental refresh *)

Section RefreshFacts.
Import Refresh.

Variable hash : pystr → N.
Variable extract : Node → list Triplet.

Lemma needs_extraction_spec (snap : Snapshot) (n : Node) :
  needs_extraction hash snap n = true ↔ new_or_changed hash snap n.
Proof.
  unfold needs_extraction, new_or_changed.
  destruct (docstore snap !! node_id n) as [h|]; [|by split; [left|]].
  rewrite negb_true_iff, N.eqb_neq. split.
  - intros Hne. right. by exists h.
  - intros [Hnone | (h' & Hh' & Hne)]; [discriminate | congruence].
Qed.

Lemma filter_none {A} (f : A → bool) (l : list A) :
  (∀ x, x ∈ l → f x = false) → List.filter f l = [].
Proof.
  induction l as [|x l IH]; intros Hall; [done|]. cbn.
  rewrite (Hall x) by (by left). apply IH. intros y Hy. apply Hall. by right.
Qed.

Lemma List_filter_sublist {A} (f : A → bool) (l : list A) :
  List.filter f l `sublist_of` l.
Proof.
  induction l as [|x l IH]; [done|]. cbn.
  destruct (f x); by constructor.
Qed.

(** The docstore of a sequence with distinct ids holds each node's hash. *)
Lemma docstore_of_lookup (nodes : list Node) (n : Node) :
  NoDup (map node_id nodes) → n ∈ nodes →
  docstore_of hash nodes !! node_id n = Some (hash (node_text n)).
Proof.
  intros Hnd Hn. unfold docstore_of. apply elem_of_list_to_map_1.
  - change (map ?f ?l) with (f <$> l) in *. by rewrite <- list_fmap_compose.
  - apply list_elem_of_In, in_map_iff. exists n.
    split; [done | by apply list_elem_of_In].
Qed.

(** C6 (spec-modelled).  On a COMPLETE snapshot the refresh sends to the
    extraction provider exactly the nodes of the new sequence that are new
    or whose content hash changed, in order, and no other; it keeps, in
    order, exactly the stored triplets whose source node id is still
    present, and appends the triplets extracted now; the result is COMPLETE.
    When the new sequence differs from the stored one in the content of one
    node only, extraction is invoked once, for that node. *)
Theorem incremental_refresh_minimal (snap : Snapshot) (nodes : list Node) :
  completion snap = true →
  ∃ calls snap',
    refresh hash extract snap nodes = Some (calls, snap')
    ∧ calls = List.filter (needs_extraction hash snap) nodes
    ∧ calls `sublist_of` nodes
    ∧ (∀ n, n ∈ calls ↔ n ∈ nodes ∧ new_or_changed hash snap n)
    ∧ (∃ kept,
         graph_store snap' = kept ++ flat_map extract calls
         ∧ kept `sublist_of` graph_store snap
         ∧ ∀ t, t ∈ kept ↔ t ∈ graph_store snap
                           ∧ source_node t ∈ map node_id nodes)
    ∧ completion snap' = true
    ∧ docstore snap' = docstore_of hash nodes
    ∧ (∀ before n n' after,
         nodes = before ++ n' :: after →
         docstore snap = docstore_of hash (before ++ n :: after) →
         NoDup (map node_id (before ++ n :: after)) →
         node_id n' = node_id n →
         hash (node_text n') ≠ hash (node_text n) →
         calls = [n']).
Proof.
  intros Hcomplete. unfold refresh. rewrite Hcomplete.
  eexists _, _. split; [reflexivity|]. cbn [graph_store completion docstore].
  split_and!.
  - reflexivity.
  - apply List_filter_sublist.
  - intros n. rewrite <- needs_extraction_spec, !list_elem_of_In.
    apply filter_In.
  - eexists. split; [reflexivity|]. split; [apply List_filter_sublist|].
    intros t. rewrite !list_elem_of_In, filter_In, bool_decide_eq_true.
    by rewrite !list_elem_of_In.
  - reflexivity.
  - reflexivity.
  - intros before n n' after -> Hstore Hnd Hid Hhash.
    assert (Hsame : ∀ m, m ∈ before ++ after → needs_extraction hash snap m = false).
    { intros m Hm. unfold needs_extraction. rewrite Hstore.
      rewrite docstore_of_lookup; [by rewrite N.eqb_refl | done |].
      apply elem_of_app in Hm as [Hm | Hm]; apply elem_of_app; [by left|].
      right. by right. }
    rewrite List.filter_app. cbn [List.filter].
    rewrite (filter_none _ before), (filter_none _ after)
      by (intros m Hm; apply Hsame, elem_of_app; auto).
    assert (Hchanged : needs_extraction hash snap n' = true).
    { unfold needs_extraction. rewrite Hstore, Hid.
      rewrite docstore_of_lookup; [| done | apply elem_of_app; right; by left].
      apply negb_true_iff, N.eqb_neq. congruence. }
    by rewrite Hchanged.
Qed.

End RefreshFacts.

(** One file edited, one deleted: one extraction call; the triplet of the
    deleted file goes, the others stay in place, the new one is appended. *)
Example refresh_after_one_edit :
  (λ r : list Node * Refresh.Snapshot,
     (map node_id r.1,
      map (λ t, (source_node t, object_ t)) (Refresh.graph_store r.2)))
    <$> Refresh.refresh demo_hash demo_extract demo_snapshot demo_new_nodes
  = Some (["a.md"], [("a.md", "small"); ("b.md", "small"); ("a.md", "large")]).
Proof. vm_compute. reflexivity. Qed.

Lemma incremental_refresh_minimal_witness :
  Refresh.completion demo_snapshot = true
  ∧ ∃ calls snap',
      Refresh.refresh demo_hash demo_extract demo_snapshot demo_new_nodes
      = Some (calls, snap')
      ∧ calls `sublist_of` demo_new_nodes
      ∧ Refresh.completion snap' = true.
Proof.
  split; [reflexivity|].
  destruct (incremental_refresh_minimal demo_hash demo_extract demo_snapshot
              demo_new_nodes eq_refl)
    as (calls & snap' & Hrun & _ & Hsub & _ & _ & Hdone & _).
  exists calls, snap'. split; [exact Hrun|]. split; [exact Hsub | exact Hdone].
Defined.

(** ** Further properties of the code *)

(** *** Sanitising, again *)

Section SanitiserProperties.
Context `{Library}.

Lemma clean_text_sublist (t : pystr) : clean_text t `sublist_of` t.
Proof.
  unfold clean_text. induction t as [|c t IH]; [done|]. cbn.
  destruct (keep_char c); by constructor.
Qed.

Lemma clean_text_keeps (t : pystr) (c : N) :
  c ∈ t → allowed c → c ∈ clean_text t.
Proof.
  intros Hc Hok. apply list_elem_of_In, filter_In.
  split; [by apply list_elem_of_In | by apply keep_char_allowed].
Qed.

(** X1.  The sanitiser only deletes characters: a cleaned text is the
    original with some characters left out, in the original order, and no
    allowed character is lost; a text is left as it is exactly when all its
    characters are allowed; cleaning goes through concatenation.  No
    document is dropped, reordered or given other metadata, not even one
    whose text is emptied. *)
Theorem sanitiser_only_deletes (loaded : list Document) :
  (∀ t, clean_text t `sublist_of` t
        ∧ (∀ c, c ∈ t → allowed c → c ∈ clean_text t)
        ∧ (clean_text t = t ↔ Forall allowed t))
  ∧ (∀ t1 t2, clean_text (t1 ++ t2) = clean_text t1 ++ clean_text t2)
  ∧ length (cleaned_docs loaded) = length loaded
  ∧ map metadata (cleaned_docs loaded) = map metadata loaded
  ∧ map text (cleaned_docs loaded) = map (λ d, clean_text (text d)) loaded.
Proof.
  split_and!.
  - intros t. split_and!.
    + apply clean_text_sublist.
    + apply clean_text_keeps.
    + split; [|apply clean_text_fixed].
      intros <-. apply clean_text_allowed.
  - intros t1 t2. apply List.filter_app.
  - by rewrite cleaned_docs_map, length_map.
  - rewrite cleaned_docs_map, map_map. reflexivity.
  - rewrite cleaned_docs_map, map_map. reflexivity.
Qed.

End SanitiserProperties.

(** *** Starting the builder on what an earlier run left *)

Section Restarts.
Context `{Library}.

Lemma replay_checkpointed (vec : option VectorIndex) (bs : list (list Node)) :
  ∀ (acc : KGIndex) (d0 : Disk),
    replay d0 (checkpointed_trace vec acc bs)
    = match bs with
      | [] => d0
      | _ :: _ => Some (mkStorage vec (Some (fold_left kg_extend bs acc)))
      end.
Proof.
  induction bs as [|b bs IH]; intros acc d0; [done|].
  cbn [checkpointed_trace]. rewrite replay_app, replay_Extract.
  change (replay d0 ([?p; ?c] ++ ?t)) with (replay (replay d0 [p; c]) t).
  rewrite IH. by destruct bs.
Qed.

(** Without a vector index in the directory the build raises at once. *)
Lemma run_without_vector_index (B : nat) (incremental : bool)
    (loaded : list Document) (s : Storage) :
  st_vector s = None →
  run B incremental loaded (Some s) = (mkWorld (Some s) [], None).
Proof.
  intros Hv. unfold run, build_with.
  by rewrite bind_run, vector_phase_existing, Hv.
Qed.

Lemma run_reload (B : nat) (loaded : list Document) (s : Storage)
    (v : VectorIndex) (kg : KGIndex) :
  st_vector s = Some v → st_kg s = Some kg →
  run B false loaded (Some s)
  = (mkWorld (Some s) [], Some (mkQueryEngine v kg (nodes_of loaded) 10 5 5)).
Proof.
  intros Hv Hkg. unfold run, build_with. fold (nodes_of loaded).
  rewrite bind_run, vector_phase_existing, Hv.
  by rewrite bind_run, (kg_phase_loaded _ _ _ _ _ kg).
Qed.

(** X2.  Started with [incremental] unset on a directory that holds both
    indexes, the builder calls no provider and writes nothing, whatever the
    documents are by now; the engine it returns searches the stored vector
    index and the stored graph, and builds its BM25 retriever over the nodes
    of the documents as they are now. *)
Theorem reload_is_silent (B : nat) (loaded : list Document) (s : Storage)
    (v : VectorIndex) (kg : KGIndex) :
  st_vector s = Some v → st_kg s = Some kg →
  let r := run B false loaded (Some s) in
  log r.1 = [] ∧ disk r.1 = Some s
  ∧ r.2 = Some (mkQueryEngine v kg (nodes_of loaded) 10 5 5).
Proof. intros Hv Hkg r. subst r. by rewrite (run_reload _ _ _ v kg). Qed.

(** X3.  Building from nothing and then starting again on the result, with
    the same documents and [incremental] unset, returns the very engine the
    first run returned, and the second run calls no provider and writes
    nothing; this holds for an empty corpus too. *)
Theorem build_then_reload (B : nat) (incremental : bool) (loaded : list Document) :
  0 < B →
  let first := run B incremental loaded None in
  run B false loaded (disk first.1) = (mkWorld (disk first.1) [], first.2).
Proof.
  intros HB first. subst first. rewrite run_fresh by done. cbn [fst snd disk].
  unfold fresh_trace. rewrite !replay_app, replay_Embed, replay_checkpointed.
  cbn [replay fold_left].
  destruct (partition_batches B (nodes_of loaded)) as [|b bs] eqn:Hbs.
  - unfold run, build_with. fold (nodes_of loaded).
    rewrite bind_run, vector_phase_existing. cbn [st_vector].
    rewrite bind_run, kg_phase_absent, fresh_build_run by done.
    rewrite Hbs. cbn. reflexivity.
  - by rewrite (run_reload _ _ _ (mkVectorIndex (nodes_of loaded))
                  (fold_left kg_extend (b :: bs) (mkKGIndex [] []))).
Qed.

(** X4.  When the library's refresh raises, the handler written for "no
    existing KG" runs: every node is sent to the extraction provider again,
    from index 0, after whatever the refresh itself had extracted; the run
    still returns an engine, over the stored vector index. *)
Theorem refresh_failure_rebuilds_from_zero (B : nat) (loaded : list Document)
    (s : Storage) (v : VectorIndex) (kg : KGIndex) (extracted : list Node) :
  0 < B →
  st_vector s = Some v → st_kg s = Some kg →
  refresh_ref kg (cleaned_docs loaded) = (extracted, None) →
  let r := run B true loaded (Some s) in
  extract_calls (log r.1) = extracted ++ nodes_of loaded
  ∧ embed_calls (log r.1) = []
  ∧ ∃ e, r.2 = Some e ∧ qe_vector e = v ∧ qe_bm25_nodes e = nodes_of loaded.
Proof.
  intros HB Hv Hkg Href r. subst r. split_and!.
  - rewrite (run_log_existing _ _ _ _ v) by done.
    rewrite (kg_phase_refresh_raised _ _ _ _ _ kg extracted) by done.
    rewrite fresh_build_run by done. cbn [fst log app].
    rewrite extract_calls_app, extract_calls_Extract, extract_calls_checkpointed.
    f_equal. apply batches_concat; [done | reflexivity].
  - rewrite (run_log_existing _ _ _ _ v) by done. apply kg_phase_no_embed.
  - unfold run, build_with. fold (nodes_of loaded).
    rewrite bind_run, vector_phase_existing, Hv.
    rewrite bind_run, (kg_phase_refresh_raised _ _ _ _ _ kg extracted) by done.
    rewrite fresh_build_run by done. eexists. split; [reflexivity|]. done.
Qed.

(** X5.  A first run killed after [os.makedirs] and before the vector index
    is written leaves a directory without index.  Every later run on it,
    whatever its arguments, raises before calling a provider and leaves the
    directory as it is, and the server exits with code 1: the builder does
    not recover by itself. *)
Theorem killed_during_vector_phase (B : nat) (incremental : bool)
    (loaded : list Document) (k : nat) :
  0 < B →
  1 ≤ k ≤ 1 + length (nodes_of loaded) →
  let d := replay None (take k (log (run B incremental loaded None).1)) in
  d = Some (mkStorage None None)
  ∧ (∀ B' incremental' loaded',
       run B' incremental' loaded' d = (mkWorld d [], None))
  ∧ ∀ loaded', (main loaded' d).2 = Exited 1.
Proof.
  intros HB Hk d.
  assert (Hd : d = Some (mkStorage None None)).
  { subst d. rewrite run_fresh by done. cbn [fst log]. unfold fresh_trace.
    destruct k as [|k]; [lia|]. cbn [app take].
    rewrite take_app, length_map.
    replace (k - length (nodes_of loaded)) with 0 by lia.
    rewrite take_0, app_nil_r, firstn_map.
    change (replay None (MakeDirs :: ?t))
      with (replay (Some (mkStorage None None)) t).
    apply replay_Embed. }
  rewrite Hd. split_and!; [done | |].
  - intros B' i' l'. by apply run_without_vector_index.
  - intros l'. unfold main. by rewrite run_without_vector_index.
Qed.

End Restarts.

(** *** The checkpoints of a complete build *)

Section Checkpoints.
Context `{Library}.

Lemma checkpoints_app (evs evs' : list event) :
  checkpoints (evs ++ evs') = checkpoints evs ++ checkpoints evs'.
Proof. apply flat_map_app. Qed.

Lemma checkpoints_Extract (ns : list Node) : checkpoints (map Extract ns) = [].
Proof. induction ns as [|n ns IH]; simpl; congruence. Qed.

Lemma checkpoints_Embed (ns : list Node) : checkpoints (map Embed ns) = [].
Proof. induction ns as [|n ns IH]; simpl; congruence. Qed.

Lemma checkpoints_checkpointed (vec : option VectorIndex) (bs : list (list Node)) :
  ∀ acc,
    checkpoints (checkpointed_trace vec acc bs)
    = map (λ j, length (kg_nodes acc) + length (concat (take (S j) bs)))
          (seq 0 (length bs)).
Proof.
  induction bs as [|b bs IH]; intros acc; [done|].
  cbn [checkpointed_trace length seq map].
  rewrite !checkpoints_app, checkpoints_Extract, IH. cbn [app checkpoints flat_map].
  cbn [kg_extend kg_nodes take concat]. rewrite app_nil_r, length_app. f_equal.
  rewrite <- seq_shift, map_map. apply map_ext. intros j.
  cbn [take concat]. rewrite !length_app. lia.
Qed.

Lemma announced_checkpointed (vec : option VectorIndex) (bs : list (list Node)) :
  ∀ acc a,
    announced a (checkpointed_trace vec acc bs)
    = match bs with
      | [] => a
      | _ :: _ => length (kg_nodes (fold_left kg_extend bs acc))
      end.
Proof.
  induction bs as [|b bs IH]; intros acc a; [done|].
  cbn [checkpointed_trace]. rewrite announced_app, announced_Extract.
  change (announced a ([?p; CheckpointSaved ?c] ++ ?t)) with (announced c t).
  rewrite IH. by destruct bs.
Qed.

Lemma announced_Embed (ns : list Node) (a : nat) :
  announced a (map Embed ns) = a.
Proof. revert a. induction ns as [|n ns IH]; intros a; simpl; auto. Qed.

(** As many batches as the interval needs to cover the list. *)
Lemma batches_count {A} (B : nat) :
  0 < B →
  ∀ (fuel : nat) (l : list A),
    length l ≤ fuel →
    length l ≤ B * length (batches fuel B l)
    ∧ B * length (batches fuel B l) < length l + B.
Proof.
  intros HB. induction fuel as [|fuel IH]; intros l Hlen.
  - destruct l; simpl in *; lia.
  - destruct l as [|x l]; [simpl; lia|].
    cbn [batches length].
    specialize (IH (drop B (x :: l))).
    rewrite length_drop in IH. cbn [length] in *.
    rewrite Nat.mul_succ_r.
    destruct IH as [Hlo Hhi]; [lia|].
    destruct (length (batches fuel B (drop B (x :: l)))) as [|m];
      rewrite ?Nat.mul_0_r, ?Nat.mul_succ_r in *; lia.
Qed.

(** X6.  A fresh build that runs to its end over [n] nodes announces one
    checkpoint per batch, that is as many as it takes intervals to cover
    [n]; the checkpoint of a batch is the number of nodes of all batches up
    to it; the last message says [n], and the directory then holds a graph
    over all [n] nodes. *)
Theorem checkpoints_of_a_complete_build (B : nat) (incremental : bool)
    (loaded : list Document) :
  0 < B →
  let nodes := nodes_of loaded in
  let bs := partition_batches B nodes in
  let r := run B incremental loaded None in
  checkpoints (log r.1)
  = map (λ j, length (concat (take (S j) bs))) (seq 0 (length bs))
  ∧ length nodes ≤ B * length (checkpoints (log r.1))
  ∧ B * length (checkpoints (log r.1)) < length nodes + B
  ∧ last_checkpoint (log r.1) = length nodes
  ∧ processed_count (disk r.1) = length nodes.
Proof.
  intros HB nodes bs r. subst r. rewrite run_fresh by done. fold nodes.
  cbn [fst log disk]. unfold fresh_trace. fold bs.
  assert (Hcat : concat bs = nodes)
    by (apply batches_concat; [done | reflexivity]).
  assert (Hcs : checkpoints
                  ([MakeDirs] ++ map Embed nodes
                     ++ [Persist (mkStorage (Some (mkVectorIndex nodes)) None)]
                     ++ checkpointed_trace (Some (mkVectorIndex nodes))
                          (mkKGIndex [] []) bs)
                = map (λ j, length (concat (take (S j) bs))) (seq 0 (length bs))).
  { rewrite !checkpoints_app, checkpoints_Embed, checkpoints_checkpointed.
    reflexivity. }
  rewrite Hcs, length_map, length_seq.
  destruct (batches_count B HB (length nodes) nodes (le_n _)) as [Hlo Hhi].
  fold (partition_batches B nodes) in Hlo, Hhi. fold bs in Hlo, Hhi.
  split_and!; [done..| |].
  - unfold last_checkpoint. rewrite !announced_app, announced_Embed.
    cbn [announced fold_left]. rewrite announced_checkpointed.
    destruct bs as [|b bs'] eqn:Hbs; [by rewrite <- Hcat|].
    by rewrite kg_nodes_fold_extend, Hcat.
  - rewrite !replay_app, replay_Embed, replay_checkpointed. cbn [replay fold_left].
    destruct bs as [|b bs'] eqn:Hbs; [by rewrite <- Hcat|].
    cbn [processed_count]. by rewrite kg_nodes_fold_extend, Hcat.
Qed.

End Checkpoints.

(** *** The other builders *)

Section OtherBuilders.
Context `{Library}.

Lemma gemini_fresh (loaded : list Document) (l : list event) :
  let nodes := get_nodes_from_documents loaded in
  let full := mkStorage (Some (mkVectorIndex nodes))
                        (Some (kg_extend (mkKGIndex [] []) nodes)) in
  build_gemini_stack loaded (mkWorld None l)
  = (mkWorld (Some full) (l ++ map Embed nodes ++ map Extract nodes ++ [Persist full]),
     Some true).
Proof.
  intros nodes full. unfold build_gemini_stack. fold nodes.
  rewrite bind_run. cbn [get_disk disk].
  rewrite bind_run, for_each_emit. cbn [disk log].
  rewrite bind_run, insert_nodes_run. cbn [disk log].
  rewrite bind_run, persist_run. cbn [disk log].
  by rewrite <- !app_assoc.
Qed.

Lemma gemini_existing (loaded : list Document) (s : Storage) (l : list event) :
  build_gemini_stack loaded (mkWorld (Some s) l)
  = (mkWorld (Some s) l,
     match st_vector s, st_kg s with
     | Some _, Some _ => Some true
     | _, _ => None
     end).
Proof.
  unfold build_gemini_stack, load_vector, load_kg.
  rewrite bind_run; simpl. rewrite bind_run; simpl.
  by destruct (st_vector s), (st_kg s).
Qed.

Lemma replay_quiet (d : Disk) (evs : list event) :
  Forall (λ e, match e with Embed _ | Extract _ | CheckpointSaved _ => True
                          | _ => False end) evs →
  replay d evs = d.
Proof.
  induction 1 as [|e evs He _ IH]; [done|].
  destruct e; try done; exact IH.
Qed.

(** X7.  The Gemini builder writes once, at the very end: a first run embeds
    every node, then extracts from every node, and only then persists both
    indexes.  Killed at any earlier moment it leaves no storage directory at
    all, so nothing of the paid work survives. *)
Theorem gemini_build_is_all_or_nothing (loaded : list Document) (k : nat) :
  let nodes := get_nodes_from_documents loaded in
  let r := build_gemini_stack loaded (mkWorld None []) in
  r.2 = Some true
  ∧ (∃ full, log r.1 = map Embed nodes ++ map Extract nodes ++ [Persist full]
             ∧ disk r.1 = Some full
             ∧ st_vector full = Some (mkVectorIndex nodes)
             ∧ (kg_nodes <$> st_kg full) = Some nodes)
  ∧ (k < length (log r.1) → replay None (take k (log r.1)) = None).
Proof.
  intros nodes r. subst r. rewrite gemini_fresh. fold nodes. cbn [fst snd log disk app].
  split_and!; [done | |].
  - eexists. split_and!; reflexivity.
  - rewrite !length_app, !length_map. cbn [length]. intros Hk.
    rewrite app_assoc, take_app_le by (rewrite length_app, !length_map; lia).
    apply replay_quiet, Forall_take, Forall_app. split.
    + apply Forall_forall. intros e He.
      apply list_elem_of_In, in_map_iff in He as (n & <- & _). done.
    + apply Forall_forall. intros e He.
      apply list_elem_of_In, in_map_iff in He as (n & <- & _). done.
Qed.

(** X8.  On an existing directory the Gemini builder calls no provider and
    writes nothing, whatever the documents are; it returns [True] exactly
    when the directory holds both indexes and raises otherwise.  In
    particular the run after a complete first run returns [True]. *)
Theorem gemini_reload (loaded loaded' : list Document) (s : Storage) :
  let r := build_gemini_stack loaded (mkWorld (Some s) []) in
  let again :=
    build_gemini_stack loaded'
      (mkWorld (disk (build_gemini_stack loaded (mkWorld None [])).1) []) in
  log r.1 = [] ∧ disk r.1 = Some s
  ∧ (r.2 = Some true ↔ is_Some (st_vector s) ∧ is_Some (st_kg s))
  ∧ (r.2 = None ↔ st_vector s = None ∨ st_kg s = None)
  ∧ again.2 = Some true ∧ log again.1 = [].
Proof.
  intros r again. subst r again. rewrite gemini_fresh. cbn [fst disk].
  rewrite !gemini_existing. cbn [fst snd log disk st_vector st_kg].
  split_and!; try done.
  - destruct (st_vector s), (st_kg s); split;
      (done || (by intros [[? ?] [? ?]]) || eauto).
  - destruct (st_vector s), (st_kg s); split; (done || (by intros [?|?]) || eauto).
Qed.

Lemma rag_index_fresh (loaded : list Document) (l : list event) :
  let nodes := get_nodes_from_documents loaded in
  let stored := mkStorage (Some (mkVectorIndex nodes)) None in
  build_rag_index loaded (mkWorld None l)
  = (mkWorld (Some stored) (l ++ map Embed nodes ++ [Persist stored]),
     Some (mkVectorIndex nodes, nodes)).
Proof.
  intros nodes stored. unfold build_rag_index. fold nodes.
  rewrite bind_run. cbn [get_disk disk]. rewrite bind_run.
  rewrite bind_run, for_each_emit. cbn [disk log].
  rewrite bind_run, persist_run. cbn [disk log].
  by rewrite <- !app_assoc.
Qed.

Lemma rag_index_existing (loaded : list Document) (s : Storage) (l : list event) :
  build_rag_index loaded (mkWorld (Some s) l)
  = (mkWorld (Some s) l,
     (λ v, (v, get_nodes_from_documents loaded)) <$> st_vector s).
Proof.
  unfold build_rag_index, load_vector.
  rewrite bind_run; simpl. rewrite bind_run. rewrite bind_run; simpl.
  by destruct (st_vector s).
Qed.

(** X9.  [build_rag_index] embeds every node on its first run and writes
    once, after the last embedding, so a run killed earlier leaves no
    directory.  A later run, whatever the documents have become, embeds
    nothing and writes nothing: it returns the vector index of the first run
    together with a BM25 corpus made of the nodes of the documents as they
    are now. *)
Theorem rag_index_build_then_reload (loaded loaded' : list Document) (k : nat) :
  let nodes := get_nodes_from_documents loaded in
  let first := build_rag_index loaded (mkWorld None []) in
  let second := build_rag_index loaded' (mkWorld (disk first.1) []) in
  first.2 = Some (mkVectorIndex nodes, nodes)
  ∧ embed_calls (log first.1) = nodes
  ∧ (k < length (log first.1) → replay None (take k (log first.1)) = None)
  ∧ second.2 = Some (mkVectorIndex nodes, get_nodes_from_documents loaded')
  ∧ log second.1 = [] ∧ disk second.1 = disk first.1.
Proof.
  intros nodes first second. subst first second.
  rewrite rag_index_fresh. fold nodes. cbn [fst snd log disk app].
  rewrite rag_index_existing. cbn [fst snd log disk st_vector fmap option_fmap option_map].
  split_and!; try done.
  - rewrite embed_calls_app, embed_calls_Embed. apply app_nil_r.
  - rewrite length_app, length_map. cbn [length]. intros Hk.
    rewrite take_app_le by (rewrite length_map; lia).
    rewrite firstn_map. apply replay_Embed.
Qed.

End OtherBuilders.

(** *** The server across re-indexes *)

Section ServerLifetime.
Context `{Library}.

(** A run with [incremental] set on a directory that holds a vector index:
    the index stays in the directory, is not embedded again, and is the one
    the returned engine searches. *)
Lemma run_keeps_vector_index (B : nat) (loaded : list Document) (s : Storage)
    (v : VectorIndex) :
  0 < B → st_vector s = Some v →
  let r := run B true loaded (Some s) in
  (∃ s', disk r.1 = Some s' ∧ st_vector s' = Some v)
  ∧ embed_calls (log r.1) = []
  ∧ ∃ e, r.2 = Some e ∧ qe_vector e = v ∧ qe_bm25_nodes e = nodes_of loaded.
Proof.
  intros HB Hv r. subst r.
  assert (Hfresh : ∀ l,
    let r := fresh_build B (Some s) (nodes_of loaded) (mkWorld (Some s) l) in
    (∃ s', disk r.1 = Some s' ∧ st_vector s' = Some v) ∧ ∃ kg, r.2 = Some kg).
  { intros l. cbn zeta. rewrite fresh_build_run by done. cbn [fst snd disk].
    rewrite replay_checkpointed. split; [|eauto].
    destruct (partition_batches B (nodes_of loaded)); eauto. }
  split_and!.
  - unfold run, build_with. fold (nodes_of loaded).
    rewrite bind_run, vector_phase_existing, Hv. rewrite bind_run.
    destruct (st_kg s) as [kg|] eqn:Hkg.
    + destruct (refresh_ref kg (cleaned_docs loaded)) as [extracted [kg'|]] eqn:Href.
      * rewrite (kg_phase_refreshed _ _ _ _ _ kg kg' extracted) by done.
        cbn. eauto.
      * rewrite (kg_phase_refresh_raised _ _ _ _ _ kg extracted) by done.
        destruct (Hfresh (map Extract extracted)) as [Hdisk [kg' Hres]].
        cbn [app] in *.
        destruct (fresh_build _ _ _ _) as [w' r']. cbn in *. by subst r'.
    + rewrite kg_phase_absent by done.
      destruct (Hfresh []) as [Hdisk [kg' Hres]].
      destruct (fresh_build _ _ _ _) as [w' r']. cbn in *. by subst r'.
  - rewrite (run_log_existing _ _ _ _ v) by done. apply kg_phase_no_embed.
  - unfold run, build_with. fold (nodes_of loaded).
    rewrite bind_run, vector_phase_existing, Hv. rewrite bind_run.
    destruct (st_kg s) as [kg|] eqn:Hkg.
    + destruct (refresh_ref kg (cleaned_docs loaded)) as [extracted [kg'|]] eqn:Href.
      * rewrite (kg_phase_refreshed _ _ _ _ _ kg kg' extracted) by done.
        cbn. eauto.
      * rewrite (kg_phase_refresh_raised _ _ _ _ _ kg extracted) by done.
        destruct (Hfresh (map Extract extracted)) as [Hdisk [kg' Hres]].
        cbn [app] in *.
        destruct (fresh_build _ _ _ _) as [w' r']. cbn in *. subst r'. cbn. eauto.
    + rewrite kg_phase_absent by done.
      destruct (Hfresh []) as [Hdisk [kg' Hres]].
      destruct (fresh_build _ _ _ _) as [w' r']. cbn in *. subst r'. cbn. eauto.
Qed.

(** What a server that came up holds. *)
Lemma started_holds_vector_index (loaded : list Document) (d : Disk) (s : Server) :
  started loaded d = Some s →
  ∃ st, server_disk s = Some st ∧ st_vector st = Some (qe_vector (engine s)).
Proof.
  unfold started, main. destruct d as [st0|].
  - destruct (st_vector st0) as [v|] eqn:Hv.
    + destruct (run_keeps_vector_index CHECKPOINT_INTERVAL loaded st0 v
                  CHECKPOINT_INTERVAL_pos Hv) as ((s' & Hd & Hv') & _ & e & He & Hq & _).
      destruct (run _ _ _ _) as [w r]. cbn in *. subst r.
      intros [= <-]. cbn. exists s'. by rewrite Hq.
    + by rewrite run_without_vector_index.
  - rewrite run_fresh by apply CHECKPOINT_INTERVAL_pos. cbn [disk].
    intros [= <-]. cbn [server_disk engine qe_vector].
    unfold fresh_trace. cbn [app]. rewrite replay_app, replay_Embed.
    change (replay ?d0 (Persist ?st :: ?t)) with (replay (Some st) t).
    rewrite replay_checkpointed.
    destruct (partition_batches _ _); eauto.
Qed.

Lemma reindex_once_keeps_vector_index (s : Server) (loaded : list Document)
    (st : Storage) :
  server_disk s = Some st → st_vector st = Some (qe_vector (engine s)) →
  let s' := reindex_once s loaded in
  (∃ st', server_disk s' = Some st'
          ∧ st_vector st' = Some (qe_vector (engine s')))
  ∧ qe_vector (engine s') = qe_vector (engine s)
  ∧ embed_calls (server_log s') = embed_calls (server_log s)
  ∧ qe_bm25_nodes (engine s') = nodes_of loaded.
Proof.
  intros Hd Hv s'. subst s'. unfold reindex_once. rewrite Hd.
  destruct (run_keeps_vector_index CHECKPOINT_INTERVAL loaded st _
              CHECKPOINT_INTERVAL_pos Hv) as ((st' & Hd' & Hv') & Hemb & e & He & Hq & Hb).
  destruct (run _ _ _ _) as [w r]. cbn in *. subst r. cbn.
  rewrite embed_calls_app, Hemb, app_nil_r, Hq. split_and!; eauto.
Qed.

(** X10.  For as long as a server runs, whatever files change and however
    often it re-indexes: the embedding provider is not called again, and the
    vector retriever keeps searching the index the server came up with,
    while the BM25 retriever is rebuilt over the documents of the latest
    re-index (the providers answering). *)
Theorem vector_index_is_frozen (loaded : list Document) (d : Disk) (s : Server)
    (changes : list (list Document)) :
  started loaded d = Some s →
  let s' := after_changes s changes in
  qe_vector (engine s') = qe_vector (engine s)
  ∧ embed_calls (server_log s') = embed_calls (server_log s)
  ∧ (∃ st', server_disk s' = Some st'
            ∧ st_vector st' = Some (qe_vector (engine s)))
  ∧ ∀ earlier latest, changes = earlier ++ [latest] →
      qe_bm25_nodes (engine s') = nodes_of latest.
Proof.
  intros Hstart. destruct (started_holds_vector_index _ _ _ Hstart) as (st & Hd & Hv).
  clear Hstart. cbn zeta. revert st Hd Hv.
  induction changes as [|latest changes IH] using rev_ind; intros st Hd Hv.
  - cbn. split_and!; [done | done | eauto |].
    intros earlier latest Heq. by destruct earlier.
  - unfold after_changes in *. rewrite fold_left_app. cbn [fold_left].
    destruct (IH st Hd Hv) as (Hq & Hemb & (st1 & Hd1 & Hv1) & _).
    set (s1 := fold_left reindex_once changes s) in *.
    rewrite <- Hq in Hv1.
    destruct (reindex_once_keeps_vector_index s1 latest st1 Hd1 Hv1)
      as ((st2 & Hd2 & Hv2) & Hq2 & Hemb2 & Hb2).
    split_and!.
    + congruence.
    + congruence.
    + exists st2. split; [done|]. congruence.
    + intros earlier latest' Heq. apply app_inj_tail in Heq as [_ <-]. exact Hb2.
Qed.

End ServerLifetime.

(** *** The tool handler and the evaluation script *)

Section Callers.
Context `{Library}.

(** X11.  A tool call reaches the engine, once, only when the tool is
    [query_bakkesmod_sdk] and the arguments are a dict.  Any other name is a
    [ValueError] naming the tool; no arguments at all is an
    [AttributeError] before any query.  The handler does not check the
    [query] key its schema requires: a dict without it sends [None] to the
    engine.  An answer is a single text content holding the response. *)
Theorem tool_call_outcomes (ask : option string → option string) (name : string)
    (arguments : option (gmap string string)) :
  let r := handle_call_tool ask name arguments in
  (r.1 ≠ [] ↔ name = "query_bakkesmod_sdk" ∧ is_Some arguments)
  ∧ (name ≠ "query_bakkesmod_sdk" →
     r = ([], inl (ValueError ("Tool not found: " +:+ name))))
  ∧ (name = "query_bakkesmod_sdk" → arguments = None → r = ([], inl AttributeError))
  ∧ (∀ args, name = "query_bakkesmod_sdk" → arguments = Some args →
       r.1 = [args !! "query"]
       ∧ r.2 = match ask (args !! "query") with
               | Some response => inr [mkTextContent "text" response]
               | None => inl QueryRaised
               end).
Proof.
  intros r. subst r. unfold handle_call_tool.
  destruct (String.eqb_spec name "query_bakkesmod_sdk") as [-> | Hne].
  - destruct arguments as [args|].
    + split_and!.
      * destruct (ask (args !! "query")); cbn; split; eauto; done.
      * done.
      * done.
      * intros args' _ [= <-]. by destruct (ask (args !! "query")).
    + split_and!; try done. cbn. split; [done|]. by intros [_ [? ?]].
  - split_and!; try done. cbn. split; [done | by intros [? _]].
Qed.

Lemma ask_all_spec (ask : string → option Response) (queries : list string) :
  ∀ results,
    let r := ask_all ask queries results in
    r.1 `prefix_of` queries
    ∧ (Forall (λ q, is_Some (ask q)) queries →
       r.1 = queries
       ∧ ∃ rs, r.2 = Some (results ++ rs)
               ∧ Forall2 (λ q qr, qr.1 = q ∧ ask q = Some qr.2) queries rs)
    ∧ (∀ i q, queries !! i = Some q → ask q = None →
       Forall (λ q', is_Some (ask q')) (take i queries) →
       r.1 = take (S i) queries ∧ r.2 = None).
Proof.
  induction queries as [|q queries IH]; intros results; cbn [ask_all].
  - split_and!; [done | | by intros i q Hi; rewrite lookup_nil in Hi].
    intros _. split; [done|]. exists []. by rewrite app_nil_r.
  - destruct (ask q) as [response|] eqn:Hq.
    + specialize (IH (results ++ [(q, response)])). cbn zeta in IH.
      destruct (ask_all ask queries (results ++ [(q, response)])) as [asked out].
      cbn [fst snd] in *. destruct IH as (Hpre & Hall & Hfail).
      split_and!.
      * by apply prefix_cons.
      * intros Hok. apply Forall_cons in Hok as [_ Hok].
        destruct (Hall Hok) as (-> & rs & -> & Hrs).
        split; [done|]. exists ((q, response) :: rs).
        rewrite <- app_assoc. split; [done|]. by constructor.
      * intros [|i] q' Hi Hq' Hbefore; cbn in Hi.
        -- congruence.
        -- cbn [take] in Hbefore. apply Forall_cons in Hbefore as [_ Hbefore].
           destruct (Hfail i q' Hi Hq' Hbefore) as [-> ->]. done.
    + cbn [fst snd]. split_and!.
      * apply prefix_cons, prefix_nil.
      * intros Hok. apply Forall_cons in Hok as [[? Hsome] _]. congruence.
      * intros [|i] q' Hi Hq' Hbefore; [done|].
        cbn [take] in Hbefore. apply Forall_cons in Hbefore as [[? Hsome] _].
        congruence.
Qed.

(** X12.  The evaluation builds with [incremental] unset and asks its
    queries in order.  When the build raises it asks nothing.  It stops at
    the first query that raises: the queries asked are those up to and
    including that one, and nothing is reported, the earlier answers being
    lost.  A report is made only when every query was answered; it then
    lists each question in order with the number of its sources. *)
Theorem evaluation_stops_at_first_failure
    (query : QueryEngine → string → option Response)
    (loaded : list Document) (d : Disk) :
  let build := run CHECKPOINT_INTERVAL false loaded d in
  let r := run_evaluation query loaded d in
  r.1.1 = build.1
  ∧ r.1.2 `prefix_of` test_queries
  ∧ (build.2 = None → r.1.2 = [] ∧ r.2 = None)
  ∧ ∀ e, build.2 = Some e →
      (∀ i q, test_queries !! i = Some q → query e q = None →
         Forall (λ q', is_Some (query e q')) (take i test_queries) →
         r.1.2 = take (S i) test_queries ∧ r.2 = None)
      ∧ (Forall (λ q, is_Some (query e q)) test_queries →
         r.1.2 = test_queries
         ∧ ∃ lines, r.2 = Some lines
             ∧ Forall2 (λ q line, line.1 = q
                          ∧ ∃ response, query e q = Some response
                                        ∧ line.2 = length (contexts response))
                       test_queries lines).
Proof.
  intros build r. subst build r. unfold run_evaluation.
  destruct (run CHECKPOINT_INTERVAL false loaded d) as [w [e|]]; cbn [fst snd].
  - pose proof (ask_all_spec (query e) test_queries []) as Hspec. cbn zeta in Hspec.
    destruct (ask_all (query e) test_queries []) as [asked out]. cbn [fst snd] in *.
    destruct Hspec as (Hpre & Hall & Hfail).
    split_and!; [done | done | done |].
    intros e' [= <-]. split.
    + intros i q Hi Hq Hbefore. destruct (Hfail i q Hi Hq Hbefore) as [-> ->]. done.
    + intros Hok. destruct (Hall Hok) as (-> & rs & -> & Hrs).
      split; [done|]. eexists. split; [reflexivity|]. cbn [app].
      clear -Hrs. induction Hrs as [|q [q' resp] qs rs [Hq Hresp] _ IH]; [constructor|].
      cbn in *. constructor; [|exact IH]. cbn. split; [done|]. eauto.
  - split_and!; [done | apply prefix_nil | done | done].
Qed.

End Callers.

(** *** Every accepted notification gets its rebuild *)

Section LoopAccounting.

Lemma count_scheduled_app (evs evs' : list loop_event) :
  count_scheduled (evs ++ evs') = count_scheduled evs + count_scheduled evs'.
Proof. unfold count_scheduled. by rewrite List.filter_app, length_app. Qed.

Lemma count_started_app (evs evs' : list loop_event) :
  count_started (evs ++ evs') = count_started evs + count_started evs'.
Proof. unfold count_started. by rewrite List.filter_app, length_app. Qed.

Lemma count_ended_app (evs evs' : list loop_event) :
  count_ended (evs ++ evs') = count_ended evs + count_ended evs'.
Proof. unfold count_ended. by rewrite List.filter_app, length_app. Qed.

Lemma sum_list_snoc (xs : list nat) (x : nat) :
  sum_list (xs ++ [x]) = sum_list xs + x.
Proof. induction xs as [|y xs IH]; cbn; lia. Qed.

Lemma loop_books_act (l : Loop) (a : action) : loop_books l → loop_books (act l a).
Proof.
  unfold loop_books, pending_rebuilds. intros (Hs & He & Hidle).
  destruct a as [ev|]; cbn [act].
  - unfold on_modified. destruct (negb _ && _); [|done]. cbn [history ready current building].
    rewrite count_scheduled_app, count_started_app, count_ended_app.
    rewrite map_app. cbn [map]. rewrite sum_list_snoc.
    cbn. split_and!; [lia | lia | done].
  - unfold tick. destruct (current l) as [body|] eqn:Hc.
    + destruct (building l) eqn:Hb.
      * cbn [history ready current building].
        rewrite count_scheduled_app, count_started_app, count_ended_app.
        cbn in *. split_and!; [lia | lia | done].
      * destruct body as [|[msg|inc] rest]; cbn [history ready current building];
          rewrite ?count_scheduled_app, ?count_started_app, ?count_ended_app;
          unfold builds_in in *; cbn in *; split_and!; (lia || done).
    + rewrite Hidle in * by done.
      destruct (ready l) as [|body rest] eqn:Hr; cbn [history ready current building].
      * rewrite Hc, Hr, Hidle by done. done.
      * cbn in *. split_and!; [lia | lia | done].
Qed.

Lemma loop_books_exec (acts : list action) : loop_books (exec acts).
Proof.
  induction acts as [|a acts IH] using rev_ind.
  - by split_and!.
  - rewrite exec_snoc. by apply loop_books_act.
Qed.

Lemma count_scheduled_exec (acts : list action) :
  count_scheduled (history (exec acts)) = length (List.filter accepted acts).
Proof.
  induction acts as [|a acts IH] using rev_ind; [done|].
  rewrite exec_snoc, List.filter_app, length_app, <- IH.
  destruct a as [ev|]; cbn [act accepted List.filter].
  - unfold on_modified. destruct (negb _ && _); cbn [history length].
    + by rewrite count_scheduled_app.
    + lia.
  - unfold tick.
    destruct (current (exec acts)) as [[|[msg|inc] rest]|];
      destruct (building (exec acts)); try destruct (ready (exec acts));
      cbn [history length]; rewrite ?count_scheduled_app; cbn; lia.
Qed.

(** One move of the loop thread is one move less to go. *)
Lemma ticks_left_tick (l : Loop) :
  ticks_left (tick l) = ticks_left l - 1.
Proof.
  unfold tick. destruct (current l) as [body|] eqn:Hc.
  - unfold ticks_left. rewrite Hc. destruct (building l).
    + cbn. lia.
    + unfold builds_in. destruct body as [|[msg|inc] rest]; cbn; lia.
  - destruct (ready l) as [|body rest] eqn:Hr.
    + unfold ticks_left. rewrite Hc, Hr. done.
    + unfold ticks_left. rewrite Hc, Hr. cbn. unfold ticks_of. lia.
Qed.

Lemma ticks_left_drained (n : nat) :
  ∀ l, ticks_left l ≤ n → ticks_left (fold_left act (replicate n Tick) l) = 0.
Proof.
  induction n as [|n IH]; intros l Hn; [cbn; lia|].
  cbn [replicate fold_left act]. apply IH. rewrite ticks_left_tick. lia.
Qed.

Lemma ticks_left_zero (l : Loop) :
  ticks_left l = 0 → current l = None ∧ ready l = [].
Proof.
  unfold ticks_left. destruct (current l) as [body|]; [lia|].
  destruct (ready l) as [|body rest]; [done|]. cbn. unfold ticks_of. lia.
Qed.

(** X13.  Notifications are neither dropped nor merged.  At any moment the
    rebuilds scheduled are as many as the notifications accepted, and each
    of them has started or is still waiting.  Left alone for as many moves
    as the work at hand needs, the loop thread ends up idle with an empty
    queue, having started and ended exactly one rebuild for every accepted
    notification: saving a file twice costs two full rebuilds. *)
Theorem one_rebuild_per_notification (acts : list action) :
  let l := exec acts in
  let drained := exec (acts ++ replicate (ticks_left l) Tick) in
  count_scheduled (history l) = length (List.filter accepted acts)
  ∧ count_scheduled (history l) = count_started (history l) + pending_rebuilds l
  ∧ count_started (history l)
    = count_ended (history l) + (if building l then 1 else 0)
  ∧ current drained = None ∧ ready drained = [] ∧ building drained = false
  ∧ count_started (history drained) = length (List.filter accepted acts)
  ∧ count_ended (history drained) = length (List.filter accepted acts).
Proof.
  intros l drained.
  destruct (loop_books_exec acts) as (Hs & He & _). fold l in Hs, He.
  assert (Hzero : ticks_left drained = 0).
  { subst drained. unfold exec. rewrite fold_left_app.
    apply ticks_left_drained. reflexivity. }
  destruct (ticks_left_zero drained Hzero) as [Hcur Hready].
  destruct (loop_books_exec (acts ++ replicate (ticks_left l) Tick))
    as (Hs' & He' & Hidle'). fold drained in Hs', He', Hidle'.
  pose proof (count_scheduled_exec (acts ++ replicate (ticks_left l) Tick)) as Hn'.
  fold drained in Hn'.
  assert (Hticks : List.filter accepted (replicate (ticks_left l) Tick) = []).
  { generalize (ticks_left l). intros n. induction n as [|n IH]; [done|]. exact IH. }
  rewrite List.filter_app, Hticks, app_nil_r in Hn'.
  unfold pending_rebuilds in Hs'. rewrite Hcur, Hready in Hs'. cbn in Hs'.
  rewrite (Hidle' Hcur) in He'.
  split_and!; [apply count_scheduled_exec | done | done | done | done
              | by apply Hidle' | lia | lia].
Qed.

End LoopAccounting.

(** *** The verdict of the diagnostics script *)

Section AuditVerdict.
Context `{Library}.

Lemma filter_nonempty {A} (f : A → bool) (l : list A) :
  List.filter f l ≠ [] ↔ ∃ x, x ∈ l ∧ f x = true.
Proof.
  split.
  - destruct (List.filter f l) as [|x xs] eqn:Hf; [done|]. intros _.
    assert (Hx : In x (List.filter f l)) by (rewrite Hf; by left).
    apply filter_In in Hx as [Hx Hfx]. exists x. by rewrite list_elem_of_In.
  - intros (x & Hx & Hfx) Hnil.
    assert (Hin : In x (List.filter f l))
      by (apply filter_In; by rewrite <- list_elem_of_In).
    by rewrite Hnil in Hin.
Qed.

(** A run that stopped did not end in success. *)
Ltac audit_failed :=
  let Hp := fresh "Hp" in
  intros Hp; change (@None unit = Some tt) in Hp; discriminate Hp.

Lemma audit_conditions_pass (h : Host) :
  audit_conditions h → run_diagnostics h = (green_audit, Some tt).
Proof.
  intros (Hkeys & (listing & f & Hl & Hf & Hmd) & (k1 & Hk1 & Ha1)
          & (k2 & Hk2 & Ha2) & Himp & Hs1 & Hs2
          & (w & e & response & Hrun & Hq & Hlen)).
  destruct (Hkeys "GOOGLE_API_KEY") as [k3 Hk3]; [unfold keys; set_solver|].
  unfold run_diagnostics, check_environment, audit_docs, audit_api_health,
    api_check, audit_dependencies, audit_storage, retrieval_test, keys.
  cbn [d_for].
  rewrite Hk1, Hk2, Hk3, Hl, Himp, Hs1, Hs2, Hrun.
  rewrite bool_decide_false by (apply filter_nonempty; eauto).
  cbv beta iota. rewrite Ha1, Ha2, Hq.
  replace (String.length response <? 20) with false
    by (symmetry; apply Nat.ltb_ge; lia).
  reflexivity.
Qed.

Lemma audit_pass_conditions (h : Host) :
  (run_diagnostics h).2 = Some tt → audit_conditions h.
Proof.
  unfold run_diagnostics, check_environment, audit_docs, audit_api_health,
    api_check, audit_dependencies, audit_storage, retrieval_test, keys.
  cbn [d_for].
  destruct (environ h !! "OPENAI_API_KEY") as [k1|] eqn:Hk1; [|audit_failed].
  destruct (environ h !! "ANTHROPIC_API_KEY") as [k2|] eqn:Hk2; [|audit_failed].
  destruct (environ h !! "GOOGLE_API_KEY") as [k3|] eqn:Hk3; [|audit_failed].
  destruct (docs_listing h) as [listing|] eqn:Hl; [|audit_failed].
  destruct (bool_decide (List.filter _ listing = [])) eqn:Hfiles; [audit_failed|].
  destruct (openai_accepts h k1) eqn:Ha1; [|audit_failed].
  destruct (anthropic_accepts h k2) eqn:Ha2; [|audit_failed].
  destruct (imports_ok h) eqn:Himp; [|audit_failed].
  destruct (storage_has h "docstore.json") eqn:Hs1; [|audit_failed].
  destruct (storage_has h "default__vector_store.json") eqn:Hs2; [|audit_failed].
  destruct (run CHECKPOINT_INTERVAL false (host_docs h) (host_disk h))
    as [w [e|]] eqn:Hrun; [|audit_failed].
  destruct (engine_query h e test_query) as [response|] eqn:Hq; [|audit_failed].
  destruct (String.length response <? 20) eqn:Hlen; [audit_failed|].
  intros _. unfold audit_conditions. rewrite Hk1, Hk2, Hl, Hrun.
  apply bool_decide_eq_false, filter_nonempty in Hfiles as (f & Hf & Hmd).
  apply Nat.ltb_ge in Hlen.
  split_and!; eauto 10.
  intros key Hkey. unfold keys in Hkey.
  repeat (apply elem_of_cons in Hkey as [-> | Hkey]); eauto.
  by apply elem_of_nil in Hkey.
Qed.

(** X14.  The audit ends in success exactly when: the three variables are
    set; [./docs] exists and lists a name ending in [.md]; OpenAI and
    Anthropic accept their keys; the four imports succeed; the two files of
    the vector index exist; and the build returns an engine whose answer to
    the test query has at least 20 characters.  Whether Google accepts its
    key and whether [index_store.json] exists make no difference.  A
    successful audit is the complete run: two provider calls, one build and
    one query, in that order. *)
Theorem audit_passes_exactly_when (h : Host) :
  ((run_diagnostics h).2 = Some tt ↔ audit_conditions h)
  ∧ ((run_diagnostics h).2 = Some tt → (run_diagnostics h).1 = green_audit).
Proof.
  split; [split|].
  - apply audit_pass_conditions.
  - intros Hok. by rewrite (audit_conditions_pass h Hok).
  - intros Hok. by rewrite (audit_conditions_pass h (audit_pass_conditions h Hok)).
Qed.



End AuditVerdict.

(** *** Which notifications the watcher acts on *)

Section WatcherFilter.

Lemma string_app_cons (a : Ascii.ascii) (s t : string) :
  String a s +:+ t = String a (s +:+ t).
Proof. reflexivity. Qed.

Lemma string_app_assoc (s t u : string) : (s +:+ t) +:+ u = s +:+ (t +:+ u).
Proof.
  induction s as [|a s IH]; [done|]. rewrite !string_app_cons. f_equal. exact IH.
Qed.

Lemma prefix_spec (s1 : string) :
  ∀ s2, String.prefix s1 s2 = true ↔ ∃ t, s2 = s1 +:+ t.
Proof.
  induction s1 as [|a s1 IH]; intros s2.
  - destruct s2; cbn; split; eauto.
  - destruct s2 as [|b s2]; cbn [String.prefix].
    + split; [done | intros [t [=]]].
    + destruct (Ascii.ascii_dec a b) as [->|Hne].
      * rewrite IH. split; intros [t Ht]; exists t.
        -- by rewrite Ht.
        -- rewrite string_app_cons in Ht. by injection Ht.
      * split; [done|]. intros [t Ht]. rewrite string_app_cons in Ht.
        injection Ht as Hab _. by destruct Hne.
Qed.

Lemma rev_app_spec (s : string) :
  ∀ t, String.rev_app s t = String.rev s +:+ t.
Proof.
  unfold String.rev. induction s as [|a s IH]; intros t; cbn [String.rev_app]; [done|].
  rewrite (IH (String a t)), (IH (String a "")). by rewrite string_app_assoc.
Qed.

Lemma rev_app_app (s t : string) :
  ∀ u, String.rev_app (s +:+ t) u = String.rev_app t (String.rev_app s u).
Proof.
  induction s as [|a s IH]; intros u; [done|].
  rewrite string_app_cons. cbn [String.rev_app]. apply IH.
Qed.

Lemma rev_append (s t : string) :
  String.rev (s +:+ t) = String.rev t +:+ String.rev s.
Proof. unfold String.rev at 1. by rewrite rev_app_app, rev_app_spec. Qed.

Lemma rev_rev (s : string) : String.rev (String.rev s) = s.
Proof.
  induction s as [|a s IH]; [done|].
  unfold String.rev at 2. cbn [String.rev_app].
  by rewrite rev_app_spec, rev_append, IH.
Qed.

(** [endswith] holds of a string and its suffixes, and of nothing else. *)
Lemma endswith_spec (s suffix : string) :
  endswith s suffix = true ↔ ∃ p, s = p +:+ suffix.
Proof.
  unfold endswith. rewrite prefix_spec. split.
  - intros [t Ht]. exists (String.rev t).
    by rewrite <- (rev_rev s), Ht, rev_append, rev_rev.
  - intros [p ->]. exists (String.rev p). apply rev_append.
Qed.

(** X16.  [endswith] is the suffix test of Python: it holds exactly of the
    strings that are some string followed by the suffix.  The watcher acts
    on a notification exactly when it is not for a directory and its path is
    some string followed by [.md]; it then puts one [reindex] at the end of
    the queue and touches nothing else, and otherwise it does nothing. *)
Theorem watcher_acts_on_markdown_paths (ev : FileEvent) (l : Loop) :
  (∀ s suffix, endswith s suffix = true ↔ ∃ p, s = p +:+ suffix)
  ∧ (accepted (Notify ev) = true
     ↔ is_directory ev = false ∧ ∃ p, src_path ev = p +:+ ".md")
  ∧ (accepted (Notify ev) = true →
     on_modified ev l
     = mkLoop (ready l ++ [reindex]) (current l) (building l)
              (history l ++ [Scheduled]))
  ∧ (accepted (Notify ev) = false → on_modified ev l = l).
Proof.
  split_and!.
  - apply endswith_spec.
  - cbn [accepted]. rewrite andb_true_iff, negb_true_iff, endswith_spec. done.
  - cbn [accepted]. unfold on_modified. by intros ->.
  - cbn [accepted]. unfold on_modified. by intros ->.
Qed.

End WatcherFilter.

(** *** The further properties on concrete inputs *)

Lemma reload_is_silent_witness :
  let s := mkStorage (Some (mkVectorIndex [mkNode "a.md" [97]%N]))
                     (Some (mkKGIndex [] [])) in
  let r := run (H:=demo_library) 2 false demo_docs (Some s) in
  st_vector s = Some (mkVectorIndex [mkNode "a.md" [97]%N])
  ∧ st_kg s = Some (mkKGIndex [] [])
  ∧ log r.1 = [] ∧ disk r.1 = Some s.
Proof.
  intros s r. split; [reflexivity|]. split; [reflexivity|].
  destruct (reload_is_silent (H:=demo_library) 2 demo_docs s
              (mkVectorIndex [mkNode "a.md" [97]%N]) (mkKGIndex [] [])
              eq_refl eq_refl) as (Hlog & Hdisk & _).
  exact (conj Hlog Hdisk).
Defined.

Lemma build_then_reload_witness :
  let first := run (H:=demo_library) 2 true demo_docs None in
  0 < 2
  ∧ run (H:=demo_library) 2 false demo_docs (disk first.1)
    = (mkWorld (disk first.1) [], first.2).
Proof.
  intros first. split; [lia|].
  exact (build_then_reload (H:=demo_library) 2 true demo_docs (le_S 1 1 (le_n 1))).
Defined.

Lemma refresh_failure_rebuilds_from_zero_witness :
  let s := mkStorage (Some (mkVectorIndex [])) (Some (mkKGIndex [] [])) in
  let r := run (H:=library_with_failing_refresh) 2 true demo_docs (Some s) in
  0 < 2
  ∧ refresh_ref (Library:=library_with_failing_refresh) (mkKGIndex [] [])
      (cleaned_docs (H:=library_with_failing_refresh) demo_docs)
    = (take 1 (nodes_of (H:=library_with_failing_refresh) demo_docs), None)
  ∧ extract_calls (log r.1)
    = take 1 (nodes_of (H:=library_with_failing_refresh) demo_docs)
      ++ nodes_of (H:=library_with_failing_refresh) demo_docs.
Proof.
  intros s r. split; [lia|]. split; [reflexivity|].
  exact (proj1 (refresh_failure_rebuilds_from_zero (H:=library_with_failing_refresh)
                  2 demo_docs s (mkVectorIndex []) (mkKGIndex [] [])
                  (take 1 (nodes_of (H:=library_with_failing_refresh) demo_docs))
                  (le_S 1 1 (le_n 1)) eq_refl eq_refl eq_refl)).
Defined.

Lemma killed_during_vector_phase_witness :
  let d := replay None (take 2 (log (run (H:=demo_library) 2 true demo_docs None).1)) in
  0 < 2
  ∧ 1 ≤ 2 ≤ 1 + length (nodes_of (H:=demo_library) demo_docs)
  ∧ d = Some (mkStorage None None)
  ∧ (main (H:=demo_library) demo_docs d).2 = Exited 1.
Proof.
  intros d.
  assert (Hk : 1 ≤ 2 ≤ 1 + length (nodes_of (H:=demo_library) demo_docs))
    by (vm_compute; lia).
  split; [lia|]. split; [exact Hk|].
  destruct (killed_during_vector_phase (H:=demo_library) 2 true demo_docs 2
              (le_S 1 1 (le_n 1)) Hk) as (Hd & _ & Hmain).
  exact (conj Hd (Hmain demo_docs)).
Defined.

Lemma checkpoints_of_a_complete_build_witness :
  let r := run (H:=demo_library) 2 true demo_docs None in
  0 < 2
  ∧ last_checkpoint (log r.1) = length (nodes_of (H:=demo_library) demo_docs)
  ∧ processed_count (disk r.1) = length (nodes_of (H:=demo_library) demo_docs).
Proof.
  intros r. split; [lia|].
  exact (proj2 (proj2 (proj2
    (checkpoints_of_a_complete_build (H:=demo_library) 2 true demo_docs
       (le_S 1 1 (le_n 1)))))).
Defined.

Lemma vector_index_is_frozen_witness :
  ∃ s, started (H:=demo_library) demo_docs None = Some s
       ∧ qe_vector (engine (after_changes (H:=demo_library) s [[]; demo_docs]))
         = qe_vector (engine s).
Proof.
  eexists. split.
  - vm_compute. reflexivity.
  - refine (proj1 (vector_index_is_frozen (H:=demo_library) demo_docs None _
                     [[]; demo_docs] _)).
    vm_compute. reflexivity.
Defined.
